(** * The enhanced validation client of lib/validation_enhanced.c

    A shallow embedding of the resilience layer (configuration store,
    connection pool, response cache, retry engine, metrics recorder and
    the orchestrator [curl_validation_enhanced]) together with the
    properties of it that the design document states.

    The file-scope variables of the C file are the fields of [world];
    every C function is a computation in the state monad [M].  libcurl,
    the clock and [sleep] are the environment: what they answer is given
    by an [env], what they were asked is logged in the [world]. *)

From Stdlib Require Import ZArith Bool Lia.
From stdpp Require Import base option list strings gmap pretty.

Local Open Scope string_scope.
Local Open Scope list_scope.
Local Open Scope Z_scope.

(** ** C data *)

(** [CURLcode] is an enum of curl.h, an [int] with the library's values. *)
Definition CURLcode := Z.
Definition CURLE_OK : CURLcode := 0.
Definition CURLE_COULDNT_CONNECT : CURLcode := 7.
Definition CURLE_OUT_OF_MEMORY : CURLcode := 27.
Definition CURLE_OPERATION_TIMEDOUT : CURLcode := 28.
Definition CURLE_BAD_FUNCTION_ARGUMENT : CURLcode := 43.

(** A [CURL*] that is not NULL is the identity of an easy handle; a pointer
    that may be NULL is an [option]. *)
Abbreviation CURL := nat (only parsing).

(** A local variable of type [CURLcode] that may not have been assigned. *)
Inductive cval :=
  | Indeterminate
  | Value (c : CURLcode).

(** Two's complement wrap-around of a 32-bit [int]. *)
Definition wrap_int (z : Z) : Z := (z + 2 ^ 31) mod 2 ^ 32 - 2 ^ 31.

(** The conversion of an [int] to the [unsigned int] that [sleep] takes. *)
Definition to_unsigned (z : Z) : Z := z mod 2 ^ 32.

(** [snprintf(buf, size, ...)] keeps the first [size - 1] characters. *)
Definition snprintf (size : nat) (s : string) : string :=
  String.substring 0 (size - 1) s.

Record validation_error_t := {
  code : Z;
  message : option string;
  details : option string;
  timestamp : option string;
  request_id : option string
}.

Record connection_pool_t := {
  connections : option (list (option CURL));
  pool_size : Z;
  current_index : Z;
  max_connections : Z
}.

(** The [next] pointer of an entry is its position in the list
    [cache_head]. *)
Record cache_entry_t := {
  key : string;
  response : string;
  expiry : Z
}.

(** [request_time] is the [double] that [difftime] returns for two whole
    numbers of seconds: their difference. *)
Record validation_metrics_t := {
  request_time : Z;
  retry_count : Z;
  response_size : Z;
  metric_timestamp : Z
}.

(** A [char*] of the configuration.  Besides the string it points to,
    [free] depends on where that string lives: a string literal (or any
    other string that [malloc] did not give) or a string that [strdup]
    returned. *)
Inductive char_ptr :=
  | NULL
  | literal (s : string)
  | allocated (s : string).

(** The string that a pointer leads to. *)
Definition str (p : char_ptr) : option string :=
  match p with
  | NULL => None
  | literal s | allocated s => Some s
  end.

Record validation_config_t := {
  base_url : char_ptr;
  timeout : Z;
  max_retries : Z;
  enable_caching : bool;
  enable_metrics : bool;
  enable_connection_pooling : bool;
  client_cert_path : char_ptr;
  client_key_path : char_ptr
}.

Definition CACHE_TTL : Z := 300.
Definition MAX_METRICS : Z := 1000.

(** ** The environment *)

(** The options the orchestrator sets on a handle before the transfer. *)
Record request := {
  req_url : string;
  req_headers : list string;
  req_postfields : string;
  req_timeout : Z;
  req_sslcert : option string;
  req_sslkey : option string
}.

(** What one [curl_easy_perform] gives: its result, the response code
    that [curl_easy_getinfo] reports afterwards, the body handed to the
    write callback of the handle, and the seconds it took. *)
Record reply := {
  r_code : CURLcode;
  r_status : Z;
  r_body : string;
  r_secs : Z
}.

Record env := {
  transport : nat → option request → reply;
  init_ok : nat → bool;
  curl_easy_strerror : CURLcode → string;
  strftime : Z → string;
  garbage : CURLcode
}.

(** ** The program state *)

Record world := {
  global_config : validation_config_t;
  connection_pool : connection_pool_t;
  cache_head : list cache_entry_t;
  metrics_buffer : list validation_metrics_t;
  now : Z;
  exchanges : nat;
  slept : list Z;
  created : nat;
  cleaned : list CURL;
  options : gmap CURL request;
  response_code : gmap CURL Z
}.

Definition set_config (c : validation_config_t) (w : world) : world :=
  {| global_config := c; connection_pool := connection_pool w;
     cache_head := cache_head w; metrics_buffer := metrics_buffer w;
     now := now w; exchanges := exchanges w; slept := slept w;
     created := created w; cleaned := cleaned w; options := options w;
     response_code := response_code w |}.

Definition set_pool (p : connection_pool_t) (w : world) : world :=
  {| global_config := global_config w; connection_pool := p;
     cache_head := cache_head w; metrics_buffer := metrics_buffer w;
     now := now w; exchanges := exchanges w; slept := slept w;
     created := created w; cleaned := cleaned w; options := options w;
     response_code := response_code w |}.

Definition set_cache (c : list cache_entry_t) (w : world) : world :=
  {| global_config := global_config w; connection_pool := connection_pool w;
     cache_head := c; metrics_buffer := metrics_buffer w;
     now := now w; exchanges := exchanges w; slept := slept w;
     created := created w; cleaned := cleaned w; options := options w;
     response_code := response_code w |}.

Definition set_metrics (m : list validation_metrics_t) (w : world) : world :=
  {| global_config := global_config w; connection_pool := connection_pool w;
     cache_head := cache_head w; metrics_buffer := m;
     now := now w; exchanges := exchanges w; slept := slept w;
     created := created w; cleaned := cleaned w; options := options w;
     response_code := response_code w |}.

(** The clock moves on by [d] seconds. *)
Definition tick (d : Z) (w : world) : world :=
  {| global_config := global_config w; connection_pool := connection_pool w;
     cache_head := cache_head w; metrics_buffer := metrics_buffer w;
     now := now w + d; exchanges := exchanges w; slept := slept w;
     created := created w; cleaned := cleaned w; options := options w;
     response_code := response_code w |}.

(** ** The state monad *)

Definition M (A : Type) : Type := world → A * world.

#[global] Instance M_ret : MRet M := λ A a w, (a, w).
#[global] Instance M_bind : MBind M :=
  λ A B k m w, let '(a, w') := m w in k a w'.

(** ** libc and libcurl *)

Definition time : M Z := λ w, (now w, w).

Definition sleep (seconds : Z) : M unit := λ w,
  ((), {| global_config := global_config w; connection_pool := connection_pool w;
          cache_head := cache_head w; metrics_buffer := metrics_buffer w;
          now := now w + seconds; exchanges := exchanges w;
          slept := seconds :: slept w;
          created := created w; cleaned := cleaned w; options := options w;
          response_code := response_code w |}).

Definition curl_easy_init (e : env) : M (option CURL) := λ w,
  if init_ok e (created w)
  then (Some (created w),
        {| global_config := global_config w; connection_pool := connection_pool w;
           cache_head := cache_head w; metrics_buffer := metrics_buffer w;
           now := now w; exchanges := exchanges w; slept := slept w;
           created := S (created w); cleaned := cleaned w; options := options w;
           response_code := response_code w |})
  else (None, w).

Definition curl_easy_cleanup (curl : option CURL) : M unit := λ w,
  match curl with
  | None => ((), w)
  | Some h =>
    ((), {| global_config := global_config w; connection_pool := connection_pool w;
            cache_head := cache_head w; metrics_buffer := metrics_buffer w;
            now := now w; exchanges := exchanges w; slept := slept w;
            created := created w; cleaned := h :: cleaned w; options := options w;
            response_code := response_code w |})
  end.

Definition curl_easy_setopt (curl : CURL) (r : request) : M unit := λ w,
  ((), {| global_config := global_config w; connection_pool := connection_pool w;
          cache_head := cache_head w; metrics_buffer := metrics_buffer w;
          now := now w; exchanges := exchanges w; slept := slept w;
          created := created w; cleaned := cleaned w;
          options := <[curl := r]> (options w);
          response_code := response_code w |}).

Definition curl_easy_perform (e : env) (curl : CURL) : M CURLcode := λ w,
  let r := transport e (exchanges w) (options w !! curl) in
  (r_code r,
   {| global_config := global_config w; connection_pool := connection_pool w;
      cache_head := cache_head w; metrics_buffer := metrics_buffer w;
      now := now w + r_secs r; exchanges := S (exchanges w); slept := slept w;
      created := created w; cleaned := cleaned w; options := options w;
      response_code := <[curl := r_status r]> (response_code w) |}).

(** [curl_easy_getinfo(curl, CURLINFO_RESPONSE_CODE, &code)]: the code of
    the last transfer on the handle, 0 when there was none. *)
Definition curl_easy_getinfo (curl : CURL) : M Z := λ w,
  (default 0 (response_code w !! curl), w).

Definition get_options (curl : CURL) : M (option request) := λ w,
  (options w !! curl, w).

Definition get_global_config : M validation_config_t := λ w,
  (global_config w, w).

(** [free(p)]: nothing happens for NULL, a string from [strdup] is
    released, and for every other pointer the behaviour is undefined,
    which is [None]. *)
Definition free (p : char_ptr) : option unit :=
  match p with
  | literal _ => None
  | NULL | allocated _ => Some ()
  end.

(** [strdup(s)], the allocation taken to succeed. *)
Definition strdup (s : string) : char_ptr := allocated s.

(** ** Error reporting *)

Definition set_validation_error (e : env) (error : option validation_error_t)
    (code : Z) (message : string) (details : option string)
  : M (option validation_error_t) :=
  match error with
  | None => mret None
  | Some err =>
    now ← time;
    mret (Some {| code := code; message := Some message; details := details;
                  timestamp := Some (strftime e now);
                  request_id := request_id err |})
  end.

(** ** Connection pool *)

(** [connections[i]]; a slot that was never written reads as NULL. *)
Definition slot (arr : option (list (option CURL))) (i : Z) : option CURL :=
  match arr with
  | Some a => default None (a !! Z.to_nat i)
  | None => None
  end.

Definition get_connection_from_pool (e : env) : M (option CURL) := λ w,
  let p := connection_pool w in
  if negb (enable_connection_pooling (global_config w)) || (pool_size p =? 0)
  then curl_easy_init e w
  else
    let curl := slot (connections p) (current_index p) in
    (curl,
     set_pool {| connections := connections p; pool_size := pool_size p;
                 current_index := Z.rem (current_index p + 1) (pool_size p);
                 max_connections := max_connections p |} w).

Definition return_connection_to_pool (curl : option CURL) : M unit := λ w,
  let p := connection_pool w in
  if negb (enable_connection_pooling (global_config w))
  then curl_easy_cleanup curl w
  else if pool_size p <? max_connections p then
    let arr :=
      match connections p with
      | Some a => a
      | None => replicate (Z.to_nat (max_connections p)) None
      end in
    ((), set_pool {| connections := Some (<[Z.to_nat (pool_size p) := curl]> arr);
                     pool_size := pool_size p + 1;
                     current_index := current_index p;
                     max_connections := max_connections p |} w)
  else curl_easy_cleanup curl w.

(** ** Response cache *)

(** The search loop of [get_cached_response]: [prev] is the part of the
    list already passed, [current] the part still to visit.  The result
    is the returned string and the list [cache_head] is left as. *)
Fixpoint cache_search (k : string) (now : Z)
    (prev current : list cache_entry_t)
  : option string * list cache_entry_t :=
  match current with
  | [] => (None, prev)
  | c :: next =>
    if String.eqb (key c) k then
      if now <? expiry c
      then (Some (response c),
            match prev with
            | [] => c :: next
            | _ :: _ => c :: prev ++ next
            end)
      else (None, prev ++ next)
    else cache_search k now (prev ++ [c]) next
  end.

Definition get_cached_response (k : string) : M (option string) := λ w,
  if negb (enable_caching (global_config w)) then (None, w)
  else
    let '(r, c) := cache_search k (now w) [] (cache_head w) in
    (r, set_cache c w).

(** The counting loop of [cache_response], which stops at [limit]. *)
Fixpoint count_entries (limit : nat) (current : list cache_entry_t) : Z :=
  match limit, current with
  | S limit, _ :: next => 1 + count_entries limit next
  | _, _ => 0
  end.

(** The second loop of [cache_response]: the last entry is unlinked when
    it has a predecessor. *)
Definition remove_last_entry (l : list cache_entry_t) : list cache_entry_t :=
  match l with
  | _ :: _ :: _ => removelast l
  | _ => l
  end.

Definition cache_response (k response : string) : M unit := λ w,
  if negb (enable_caching (global_config w)) then ((), w)
  else
    let count := count_entries 100 (cache_head w) in
    let kept :=
      if 100 <=? count then remove_last_entry (cache_head w)
      else cache_head w in
    let entry := {| key := k; response := response;
                    expiry := now w + CACHE_TTL |} in
    ((), set_cache (entry :: kept) w).

(** ** Retry with backoff *)

(** The [while] loop of [validation_retry_with_backoff].  Every pass
    either leaves the loop or increments [retry_count], so
    [max_retries - retry_count] passes are all there can be; [fuel]
    counts them down. *)
Fixpoint retry_loop (e : env) (curl : CURL) (max_retries : Z) (fuel : nat)
    (res : cval) (retry_count backoff_ms : Z) : M cval :=
  match fuel with
  | O => mret res
  | S fuel =>
    if retry_count <? max_retries then
      r ← curl_easy_perform e curl;
      if r =? CURLE_OK then
        response_code ← curl_easy_getinfo curl;
        if (200 <=? response_code) && (response_code <? 300)
        then mret (Value r)
        else if 500 <=? response_code then
          let retry_count := retry_count + 1 in
          if retry_count <? max_retries then
            sleep (to_unsigned (Z.quot backoff_ms 1000));;
            retry_loop e curl max_retries fuel (Value r) retry_count
                       (wrap_int (backoff_ms * 2))
          else
            retry_loop e curl max_retries fuel (Value r) retry_count backoff_ms
        else mret (Value r)
      else if (r =? CURLE_COULDNT_CONNECT) || (r =? CURLE_OPERATION_TIMEDOUT)
      then
        let retry_count := retry_count + 1 in
        if retry_count <? max_retries then
          sleep (to_unsigned (Z.quot backoff_ms 1000));;
          retry_loop e curl max_retries fuel (Value r) retry_count
                     (wrap_int (backoff_ms * 2))
        else mret (Value r)
      else mret (Value r)
    else mret res
  end.

Definition validation_retry_with_backoff (e : env) (curl : CURL)
    (max_retries : Z) : M cval :=
  retry_loop e curl max_retries (Z.to_nat max_retries) Indeterminate 0 1000.

(** ** Metrics *)

(** [metrics_count] is the length of [metrics_buffer]. *)
Definition record_metrics (metrics : validation_metrics_t) : M unit := λ w,
  if negb (enable_metrics (global_config w)) then ((), w)
  else if Z.of_nat (length (metrics_buffer w)) <? MAX_METRICS
  then ((), set_metrics (metrics_buffer w ++ [metrics]) w)
  else ((), w).

(** ** Configuration *)

(** One string of the configuration,
    [if (config->f) { free(global_config.f); global_config.f = strdup(config->f); }]:
    the pointer that [global_config.f] holds afterwards, [old] being what
    it held before and [new] being [config->f]. *)
Definition replace_string (old new : char_ptr) : option char_ptr :=
  match str new with
  | Some s => free old;; Some (strdup s)
  | None => Some old
  end.

(** [validation_set_config(config)]: the state after the call, or [None]
    when one of its calls of [free] has undefined behaviour. *)
Definition validation_set_config (config : validation_config_t) (w : world)
  : option world :=
  let g := global_config w in
  url ← replace_string (base_url g) (base_url config);
  cert ← replace_string (client_cert_path g) (client_cert_path config);
  pkey ← replace_string (client_key_path g) (client_key_path config);
  Some (set_config
          {| base_url := url;
             timeout := timeout config;
             max_retries := max_retries config;
             enable_caching := enable_caching config;
             enable_metrics := enable_metrics config;
             enable_connection_pooling := enable_connection_pooling config;
             client_cert_path := cert;
             client_key_path := pkey |} w).

(** ** The orchestrator *)

Definition cache_key_of (endpoint payload : string) : string :=
  snprintf 256 (endpoint +:+ ":" +:+ payload).

Definition is_2xx (response_code : Z) : bool :=
  (200 <=? response_code) && (response_code <? 300).

Definition curl_validation_enhanced (e : env) (curl : option CURL)
    (endpoint payload : option string) (error : option validation_error_t)
  : M (CURLcode * option validation_error_t) :=
  match curl, endpoint, payload with
  | Some _, Some endpoint, Some payload =>
    let cache_key := cache_key_of endpoint payload in
    cached_response ← get_cached_response cache_key;
    match cached_response with
    | Some _ => mret (CURLE_OK, error)
    | None =>
      connection ← get_connection_from_pool e;
      match connection with
      | None =>
        error ← set_validation_error e error 500 "Connection pool exhausted"
                  (Some "Unable to get connection from pool");
        mret (CURLE_OUT_OF_MEMORY, error)
      | Some connection =>
        g ← get_global_config;
        previous ← get_options connection;
        curl_easy_setopt connection
          {| req_url := snprintf 512 (default "(null)" (str (base_url g))
                                      +:+ "/" +:+ endpoint);
             req_headers := ["Content-Type: application/json";
                             "Accept: application/json"];
             req_postfields := payload;
             req_timeout := timeout g;
             req_sslcert :=
               match str (client_cert_path g) with
               | Some p => Some p
               | None => previous ≫= req_sslcert
               end;
             req_sslkey :=
               match str (client_key_path g) with
               | Some p => Some p
               | None => previous ≫= req_sslkey
               end |};;
        start_time ← time;
        r ← validation_retry_with_backoff e connection (max_retries g);
        let res := match r with Value c => c | Indeterminate => garbage e end in
        end_time ← time;
        record_metrics {| request_time := end_time - start_time;
                          retry_count := 0;
                          response_size := 0;
                          metric_timestamp := 0 |};;
        error ←
          (if res =? CURLE_OK then
             response_code ← curl_easy_getinfo connection;
             if is_2xx response_code then
               cache_response cache_key "success";;
               mret error
             else
               set_validation_error e error (wrap_int response_code)
                 (snprintf 256 ("HTTP " +:+ pretty response_code))
                 (Some "API returned non-200 status")
           else
             set_validation_error e error res (curl_easy_strerror e res)
               (Some "CURL operation failed"));
        return_connection_to_pool (Some connection);;
        mret (res, error)
      end
    end
  | _, _, _ =>
    error ← set_validation_error e error 400 "Invalid parameters"
              (Some "curl, endpoint, or payload is NULL");
    mret (CURLE_BAD_FUNCTION_ARGUMENT, error)
  end.

(** ** The state at program start and test doubles for the environment *)

Definition default_config : validation_config_t :=
  {| base_url := literal "https://api-mock.payments.jpmorgan.com/tsapi/v2";
     timeout := 30;
     max_retries := 3;
     enable_caching := true;
     enable_metrics := true;
     enable_connection_pooling := true;
     client_cert_path := NULL;
     client_key_path := NULL |}.

Definition empty_pool (capacity : Z) : connection_pool_t :=
  {| connections := None; pool_size := 0; current_index := 0;
     max_connections := capacity |}.

Definition initial_world : world :=
  {| global_config := default_config;
     connection_pool := empty_pool 10;
     cache_head := [];
     metrics_buffer := [];
     now := 1700000000;
     exchanges := 0;
     slept := [];
     created := 0;
     cleaned := [];
     options := ∅;
     response_code := ∅ |}.

(** A transport that answers every exchange with the same reply, and a
    libcurl that always has a handle to give. *)
Definition stub (r : reply) : env :=
  {| transport := λ _ _, r;
     init_ok := λ _, true;
     curl_easy_strerror := λ _, "error";
     strftime := λ _, "2023-11-14 22:13:20";
     garbage := CURLE_OK |}.

Definition http (status : Z) (body : string) : reply :=
  {| r_code := CURLE_OK; r_status := status; r_body := body; r_secs := 0 |}.

Definition blank_error : validation_error_t :=
  {| code := 0; message := None; details := None; timestamp := None;
     request_id := None |}.

(** The body [{"verification":{"code":1002}}] of the account scenario. *)
Definition dquote : string := String (Ascii.ascii_of_nat 34) EmptyString.
Definition verification_body : string :=
  "{" +:+ dquote +:+ "verification" +:+ dquote +:+ ":{" +:+ dquote
  +:+ "code" +:+ dquote +:+ ":1002}}".

(** One borrower: take a handle and give it straight back. *)
Definition acquire_release (e : env) : M unit :=
  h ← get_connection_from_pool e;
  match h with
  | Some _ => return_connection_to_pool h
  | None => mret ()
  end.

Fixpoint rounds (e : env) (n : nat) : M unit :=
  match n with
  | O => mret ()
  | S n => acquire_release e;; rounds e n
  end.



(** The slots of the pool that are in use, and the handles in them. *)
Definition idle_slots (p : connection_pool_t) : list (option CURL) :=
  take (Z.to_nat (pool_size p)) (default [] (connections p)).

Definition idle_handles (p : connection_pool_t) : list CURL :=
  omap id (idle_slots p).

Definition with_pool_capacity (n : Z) (w : world) : world :=
  set_pool (empty_pool n) w.

Definition keys (w : world) : list string := key <$> cache_head w.

(** A computation [keeps] a component of the state when it leaves it as
    it found it. *)
Definition keeps {A X} (f : world → X) (m : M A) : Prop :=
  ∀ w, f (m w).2 = f w.

(** A computation that adds to the metrics buffer nothing but metrics
    whose [retry_count] is 0, and takes nothing away from it. *)
Definition appends_zero_retries {A} (m : M A) : Prop :=
  ∀ w, ∃ ms, metrics_buffer (m w).2 = metrics_buffer w ++ ms
             ∧ Forall (λ x, retry_count x = 0) ms.

(** Pre- and postconditions of a computation. *)
Definition hoare {A} (P : world → Prop) (m : M A) (Q : A → world → Prop) : Prop :=
  ∀ w, P w → Q (m w).1 (m w).2.

(** The part of the state the cache functions read and write. *)
Definition cache_view (w : world) : list cache_entry_t * validation_config_t :=
  (cache_head w, global_config w).

(** Keys are pairwise distinct and, where caching is on, [k] is not
    among them. *)
Definition distinct_without (k : string) (w : world) : Prop :=
  NoDup (keys w) ∧ (enable_caching (global_config w) = true → k ∉ keys w).

(** A pool of capacity [n] whose slots in use hold the handles [hs], the
    remaining slots of the array being unwritten. *)
Definition pool_holds (n : nat) (hs : list CURL) (i : Z) : connection_pool_t :=
  {| connections := Some ((Some <$> hs) ++ replicate (n - length hs) None);
     pool_size := Z.of_nat (length hs);
     current_index := i;
     max_connections := Z.of_nat n |}.

(** The pool after some rounds of one borrower: pooling is on, [k] slots
    are in use and each holds [h], the index is inside them, and the
    handles cleaned up so far are [cl]. *)
Definition warm (n : nat) (h : CURL) (k : nat) (cl : list CURL) (w : world) : Prop :=
  enable_connection_pooling (global_config w) = true
  ∧ cleaned w = cl
  ∧ created w = S h
  ∧ ∃ i, 0 ≤ i < Z.of_nat k ∧ connection_pool w = pool_holds n (replicate k h) i.


Definition stored_view (w : world) :=
  (global_config w, exchanges w, cache_head w, now w).

(** The account scenario: the transport stub answers 200 with the
    verification body. *)
Definition account_stub : env := stub (http 200 verification_body).
Definition account_endpoint : string := "validations/accounts".
Definition account_json : string := "[{requestId:test-123}]".

(** A cache of three entries, the second of which has the key [k]. *)
Definition entry_a : cache_entry_t :=
  {| key := "a"; response := "ra"; expiry := 1700000100 |}.
Definition entry_k : cache_entry_t :=
  {| key := "k"; response := "rk"; expiry := 1700000200 |}.
Definition entry_b : cache_entry_t :=
  {| key := "b"; response := "rb"; expiry := 1700000300 |}.
Definition three_entries : world :=
  set_cache [entry_a; entry_k; entry_b] initial_world.

(** ** The rest of the file: teardown and the metrics snapshot *)

Definition get_pool : M connection_pool_t := λ w, (connection_pool w, w).
Definition put_pool (p : connection_pool_t) : M unit := λ w, ((), set_pool p w).
Definition put_cache (c : list cache_entry_t) : M unit := λ w, ((), set_cache c w).
Definition put_metrics (m : list validation_metrics_t) : M unit :=
  λ w, ((), set_metrics m w).

(** The loop [for (i = 0; i < pool_size; i++) curl_easy_cleanup(connections[i])]
    of [validation_cleanup], [n] passes from index [i] on. *)
Fixpoint cleanup_slots (arr : option (list (option CURL))) (i : Z) (n : nat)
  : M unit :=
  match n with
  | O => mret ()
  | S n => curl_easy_cleanup (slot arr i);; cleanup_slots arr (i + 1) n
  end.

(** [validation_cleanup]: the state after the call, or [None] when one
    of its calls of [free] has undefined behaviour.  The entries of the
    cache and the two buffers come from [malloc] and are freed, which the
    lists of the model show as their becoming empty; [current_index] is
    left as it is.  The three strings of the configuration are freed
    last.  The code leaves the pointers to them in [global_config]: in
    the state returned they are as before the call, and that they dangle
    is not recorded there. *)
Definition validation_cleanup (w : world) : option world :=
  let '(_, w') :=
    (put_cache [];;
     p ← get_pool;
     cleanup_slots (connections p) 0 (Z.to_nat (pool_size p));;
     put_pool {| connections := None; pool_size := 0;
                 current_index := current_index p;
                 max_connections := max_connections p |};;
     put_metrics []) w in
  let g := global_config w' in
  free (base_url g);;
  free (client_cert_path g);;
  free (client_key_path g);;
  Some w'.

(** [validation_get_metrics(&metrics, &count)]: the return value and what
    the two out-parameters hold afterwards, [count] being what [*count]
    held before.  [malloc_ok] tells whether the allocation of the copy
    succeeds. *)
Definition validation_get_metrics (malloc_ok : bool) (count : Z)
  : M (Z * option (list validation_metrics_t) * Z) := λ w,
  if negb (enable_metrics (global_config w)) then ((0, None, 0), w)
  else if malloc_ok
  then ((0, Some (metrics_buffer w), Z.of_nat (length (metrics_buffer w))), w)
  else ((-1, None, count), w).

(** The calls that a client makes before the teardown, and the time
    that passes between them. *)
Inductive call :=
  | validate (e : env) (curl : option CURL) (endpoint payload : option string)
             (error : option validation_error_t)
  | configure (config : validation_config_t)
  | snapshot (malloc_ok : bool) (count : Z)
  | wait (seconds : Z).

Definition do_call (c : call) (w : world) : option world :=
  match c with
  | validate e curl endpoint payload error =>
    Some (curl_validation_enhanced e curl endpoint payload error w).2
  | configure config => validation_set_config config w
  | snapshot malloc_ok count => Some (validation_get_metrics malloc_ok count w).2
  | wait seconds => Some (tick seconds w)
  end.

(** A sequence of calls: the state after the last, or [None] when the
    behaviour of one of them is undefined. *)
Fixpoint do_calls (cs : list call) (w : world) : option world :=
  match cs with
  | [] => Some w
  | c :: cs => w' ← do_call c w; do_calls cs w'
  end.

(** A client that sets a certificate, validates an account, waits and
    takes a snapshot of the metrics. *)
Definition a_session : list call :=
  [configure {| base_url := NULL; timeout := 60; max_retries := 5;
                enable_caching := true; enable_metrics := true;
                enable_connection_pooling := true;
                client_cert_path := literal "client.pem";
                client_key_path := literal "client.key" |};
   validate account_stub (Some 100%nat) (Some account_endpoint)
     (Some account_json) None;
   wait 10;
   snapshot true 0].

(** ** Vocabulary of the further properties *)

(** A reply after which the loop goes round again if it may: a transfer
    that succeeded with a status of 500 or more, or one that failed to
    connect or timed out. *)
Definition retryable (r : reply) : bool :=
  if r_code r =? CURLE_OK then 500 <=? r_status r
  else (r_code r =? CURLE_COULDNT_CONNECT) || (r_code r =? CURLE_OPERATION_TIMEDOUT).

(** The arguments of [j] successive sleeps that start at [2 ^ from]
    seconds and double, latest first as [slept] logs them. *)
Fixpoint backoff_log (from : Z) (j : nat) : list Z :=
  match j with
  | O => []
  | S j => backoff_log (from + 1) j ++ [2 ^ from]
  end.

(** The state after an exchange on [curl] followed by a sleep. *)
Definition failed_attempt (e : env) (curl : CURL) (seconds : Z) (w : world) : world :=
  (sleep seconds (curl_easy_perform e curl w).2).2.

(** A pool as [return_connection_to_pool] and [get_connection_from_pool]
    make and keep it: never used, or with its slots in use filled, no
    more of them than its capacity, and the index inside them. *)
Definition pool_wf (p : connection_pool_t) : Prop :=
  ∃ n : nat,
    p = empty_pool (Z.of_nat n)
    ∨ ∃ hs i, hs ≠ [] ∧ (length hs ≤ n)%nat ∧ 0 ≤ i < Z.of_nat (length hs)
              ∧ p = pool_holds n hs i.

(** The first entry with key [k], as the search loop meets it. *)
Fixpoint first_entry (k : string) (l : list cache_entry_t) : option cache_entry_t :=
  match l with
  | [] => None
  | c :: next => if String.eqb (key c) k then Some c else first_entry k next
  end.

(** Projections of the state that the further properties follow. *)
Definition traffic_view (w : world) := (global_config w, exchanges w).
Definition metrics_view (w : world) :=
  (global_config w, metrics_buffer w).
Definition pool_view (w : world) := (global_config w, connection_pool w).

(** A transport that answers the exchanges with the replies of a list,
    in order, and with [last] once the list is used up. *)
Definition scripted (rs : list reply) (last : reply) : env :=
  {| transport := λ i _, default last (rs !! i);
     init_ok := λ _, true;
     curl_easy_strerror := λ _, "error";
     strftime := λ _, "2023-11-14 22:13:20";
     garbage := CURLE_OK |}.

(** A transfer that fails with the given result. *)
Definition failure (c : CURLcode) : reply :=
  {| r_code := c; r_status := 0; r_body := EmptyString; r_secs := 0 |}.

(** A libcurl that cannot create a handle. *)
Definition no_handles (r : reply) : env :=
  {| transport := λ _ _, r;
     init_ok := λ _, false;
     curl_easy_strerror := λ _, "error";
     strftime := λ _, "2023-11-14 22:13:20";
     garbage := CURLE_OK |}.

(** States and replies the further properties are tried on. *)
Definition caching_off : world :=
  set_config {| base_url := base_url default_config; timeout := 30;
                max_retries := 3; enable_caching := false;
                enable_metrics := true; enable_connection_pooling := true;
                client_cert_path := NULL; client_key_path := NULL |}
             initial_world.

Definition pooling_off : world :=
  set_config {| base_url := base_url default_config; timeout := 30;
                max_retries := 3; enable_caching := true;
                enable_metrics := true; enable_connection_pooling := false;
                client_cert_path := NULL; client_key_path := NULL |}
             initial_world.

Definition full_cache : world :=
  set_cache (replicate 99 entry_a ++ [entry_b]) initial_world.

Definition not_found : reply := http 404 "Not Found".
Definition unavailable : reply := http 503 "Service Unavailable".


(** * Properties *)

(** ** Reasoning in the monad *)

Lemma bind_run {A B} (m : M A) (k : A → M B) (w : world) :
  (m ≫= k) w = k (m w).1 (m w).2.
Proof. unfold mbind, M_bind. destruct (m w); reflexivity. Qed.

Lemma ret_run {A} (a : A) (w : world) : (mret a : M A) w = (a, w).
Proof. reflexivity. Qed.

Lemma keeps_ret {A X} (f : world → X) (a : A) : keeps f (mret a : M A).
Proof. intros w; reflexivity. Qed.

Lemma keeps_bind {A B X} (f : world → X) (m : M A) (k : A → M B) :
  keeps f m → (∀ a, keeps f (k a)) → keeps f (m ≫= k).
Proof.
  intros Hm Hk w. rewrite bind_run, Hk. apply Hm.
Qed.

Lemma keeps_if {A X} (f : world → X) (b : bool) (m1 m2 : M A) :
  keeps f m1 → keeps f m2 → keeps f (if b then m1 else m2).
Proof. destruct b; auto. Qed.

Create HintDb keeps discriminated.
#[local] Hint Resolve keeps_ret keeps_bind keeps_if : keeps.

(** ** The retry loop has fuel enough *)

Lemma retry_loop_fuel (e : env) (curl : CURL) (max : Z) (fuel1 fuel2 : nat) :
  ∀ res rc b w,
    (Z.to_nat (max - rc) ≤ fuel1)%nat → (Z.to_nat (max - rc) ≤ fuel2)%nat →
    retry_loop e curl max fuel1 res rc b w = retry_loop e curl max fuel2 res rc b w.
Proof.
  revert fuel2. induction fuel1 as [|fuel1 IH]; intros [|fuel2] res rc b w H1 H2;
    simpl; try reflexivity.
  - destruct (Z.ltb_spec rc max); [lia | reflexivity].
  - destruct (Z.ltb_spec rc max); [lia | reflexivity].
  - destruct (Z.ltb_spec rc max) as [Hlt|]; [|reflexivity].
    rewrite !bind_run.
    destruct (_ =? CURLE_OK).
    + rewrite !bind_run. destruct (_ && _); [reflexivity|].
      destruct (500 <=? _); [|reflexivity].
      destruct (Z.ltb_spec (rc + 1) max).
      * rewrite !bind_run. apply IH; lia.
      * apply IH; lia.
    + destruct (_ || _); [|reflexivity].
      destruct (Z.ltb_spec (rc + 1) max); [|reflexivity].
      rewrite !bind_run. apply IH; lia.
Qed.

(** ** Which function touches which part of the state *)

Ltac unfold_prims :=
  unfold time, sleep, curl_easy_init, curl_easy_cleanup, curl_easy_setopt,
    curl_easy_perform, curl_easy_getinfo, get_options, get_global_config,
    set_validation_error, get_connection_from_pool, return_connection_to_pool,
    get_cached_response, cache_response, record_metrics,
    validation_set_config, set_config, set_pool, set_cache, set_metrics.

Ltac keeps_prim :=
  intros w; unfold_prims; unfold_prims;
  repeat (rewrite ?bind_run; simpl; try case_match); reflexivity.

(** Compositional proof that a computation keeps [f], given the facts
    about the primitives in the hint database. *)
Ltac keeps_step :=
  lazymatch goal with
  | |- keeps _ (_ ≫= _) => apply keeps_bind; [|intros ?]
  | |- keeps _ (mret _) => apply keeps_ret
  | |- keeps _ (match ?x with _ => _ end) => destruct x
  | |- keeps _ (let _ := _ in _) => cbv zeta
  | |- _ => solve [eauto with keeps]
  end.

Lemma keeps_retry_loop {X} (f : world → X) (e : env) (curl : CURL) (max : Z) :
  keeps f (curl_easy_perform e curl) → (∀ s, keeps f (sleep s)) →
  ∀ fuel res rc b, keeps f (retry_loop e curl max fuel res rc b).
Proof.
  intros Hp Hs. assert (keeps f (curl_easy_getinfo curl)) by (intros w; reflexivity).
  induction fuel as [|fuel IH]; intros res rc b; simpl; repeat keeps_step.
Qed.

Section Frames.
Context {X : Type} (f : world → X).

(** What it takes for [f] to be one of the components a primitive
    leaves alone. *)
Lemma keeps_time : keeps f time.
Proof. intros w; reflexivity. Qed.

Lemma keeps_getinfo curl : keeps f (curl_easy_getinfo curl).
Proof. intros w; reflexivity. Qed.

Lemma keeps_get_options curl : keeps f (get_options curl).
Proof. intros w; reflexivity. Qed.

Lemma keeps_get_global_config : keeps f get_global_config.
Proof. intros w; reflexivity. Qed.

Lemma keeps_set_validation_error e error c m d :
  keeps f (set_validation_error e error c m d).
Proof. intros w; destruct error; reflexivity. Qed.
End Frames.

#[local] Hint Resolve keeps_time keeps_getinfo keeps_get_options
  keeps_get_global_config keeps_set_validation_error : keeps.

(** *** The metrics buffer *)

Lemma metrics_kept_sleep s : keeps metrics_buffer (sleep s).
Proof. keeps_prim. Qed.
Lemma metrics_kept_perform e curl : keeps metrics_buffer (curl_easy_perform e curl).
Proof. keeps_prim. Qed.
Lemma metrics_kept_setopt curl r : keeps metrics_buffer (curl_easy_setopt curl r).
Proof. keeps_prim. Qed.
Lemma metrics_kept_acquire e : keeps metrics_buffer (get_connection_from_pool e).
Proof. keeps_prim. Qed.
Lemma metrics_kept_release curl : keeps metrics_buffer (return_connection_to_pool curl).
Proof. keeps_prim. Qed.
Lemma metrics_kept_lookup k : keeps metrics_buffer (get_cached_response k).
Proof. keeps_prim. Qed.
Lemma metrics_kept_store k v : keeps metrics_buffer (cache_response k v).
Proof. keeps_prim. Qed.
Lemma metrics_kept_retry e curl max :
  keeps metrics_buffer (validation_retry_with_backoff e curl max).
Proof.
  apply keeps_retry_loop; auto using metrics_kept_sleep, metrics_kept_perform.
Qed.

#[local] Hint Resolve metrics_kept_sleep metrics_kept_perform metrics_kept_setopt
  metrics_kept_acquire metrics_kept_release metrics_kept_lookup
  metrics_kept_store metrics_kept_retry : keeps.

(** ** Metrics carry no retry count *)

Lemma appends_of_keeps {A} (m : M A) :
  keeps metrics_buffer m → appends_zero_retries m.
Proof.
  intros H w. exists []. rewrite H, app_nil_r. auto.
Qed.

Lemma appends_bind {A B} (m : M A) (k : A → M B) :
  appends_zero_retries m → (∀ a, appends_zero_retries (k a)) →
  appends_zero_retries (m ≫= k).
Proof.
  intros Hm Hk w. rewrite bind_run.
  destruct (Hm w) as (ms1 & E1 & F1).
  destruct (Hk (m w).1 (m w).2) as (ms2 & E2 & F2).
  exists (ms1 ++ ms2). rewrite E2, E1, app_assoc. split; [reflexivity|].
  apply Forall_app; auto.
Qed.

Lemma appends_record_metrics (x : validation_metrics_t) :
  retry_count x = 0 → appends_zero_retries (record_metrics x).
Proof.
  intros Hx w. unfold record_metrics.
  destruct (negb _); [exists []; simpl; rewrite app_nil_r; auto|].
  destruct (_ <? _).
  - exists [x]. simpl. auto.
  - exists []. simpl. rewrite app_nil_r; auto.
Qed.

Ltac appends_step :=
  lazymatch goal with
  | |- appends_zero_retries (record_metrics _ ≫= _) =>
      apply appends_bind; [apply appends_record_metrics; reflexivity|intros ?]
  | |- appends_zero_retries (_ ≫= _) =>
      apply appends_bind; [apply appends_of_keeps|intros ?]
  | |- appends_zero_retries (match ?x with _ => _ end) => destruct x
  | |- appends_zero_retries (let _ := _ in _) => cbv zeta
  | |- appends_zero_retries _ => apply appends_of_keeps
  | |- keeps _ _ => keeps_step
  end.

(** C9.  Whatever the arguments, the environment and the state, the
    metrics buffer after [curl_validation_enhanced] is the buffer before
    followed by metrics whose [retry_count] is 0: the count of the retry
    loop never reaches a recorded metric. *)
Theorem recorded_metrics_have_zero_retry_count
    (e : env) (curl : option CURL) (endpoint payload : option string)
    (error : option validation_error_t) (w : world) :
  ∃ ms, metrics_buffer (curl_validation_enhanced e curl endpoint payload error w).2
          = metrics_buffer w ++ ms
        ∧ Forall (λ x, retry_count x = 0) ms.
Proof.
  revert w. change (appends_zero_retries
    (curl_validation_enhanced e curl endpoint payload error)).
  unfold curl_validation_enhanced.
  repeat appends_step.
Qed.

(** ** The retry engine *)

(** C10.  With [max_retries = 0] the loop body never runs, however much
    fuel the loop is given: no exchange is made, nothing in the state
    changes, and the value returned is the local [res] that was never
    assigned. *)
Theorem zero_max_retries_no_attempt (e : env) (curl : CURL) (w : world) :
  (∀ fuel, retry_loop e curl 0 fuel Indeterminate 0 1000 w = (Indeterminate, w))
  ∧ validation_retry_with_backoff e curl 0 w = (Indeterminate, w)
  ∧ exchanges (validation_retry_with_backoff e curl 0 w).2 = exchanges w.
Proof.
  split; [|split]; try reflexivity.
  intros [|fuel]; reflexivity.
Qed.

(** Against a transport that answers every exchange with a status of 500
    or more, the loop makes as many exchanges as [max_retries] says, not
    one more. *)
Lemma retry_loop_server_errors (e : env) (curl : CURL) (max : Z) :
  (∀ i o, r_code (transport e i o) = CURLE_OK ∧ 500 ≤ r_status (transport e i o)) →
  ∀ fuel res rc b w,
    fuel = Z.to_nat (max - rc) →
    exchanges (retry_loop e curl max fuel res rc b w).2 = (exchanges w + fuel)%nat.
Proof.
  intros He. induction fuel as [|fuel IH]; intros res rc b w Hf; simpl.
  - lia.
  - destruct (Z.ltb_spec rc max); [|lia].
    rewrite bind_run. unfold curl_easy_perform at 2. simpl.
    destruct (He (exchanges w) (options w !! curl)) as [-> Hs]. simpl.
    rewrite bind_run. unfold curl_easy_getinfo. simpl.
    rewrite lookup_insert_eq. simpl.
    replace (200 <=? _) with true by (symmetry; apply Z.leb_le; lia).
    replace (_ <? 300) with false by (symmetry; apply Z.ltb_ge; lia).
    replace (500 <=? _) with true by (symmetry; apply Z.leb_le; lia).
    simpl. destruct (rc + 1 <? max).
    + rewrite bind_run. rewrite IH by lia. simpl. lia.
    + rewrite IH by lia. simpl. lia.
Qed.

Lemma retry_server_errors_attempts (e : env) (curl : CURL) (max : Z) (w : world) :
  (∀ i o, r_code (transport e i o) = CURLE_OK ∧ 500 ≤ r_status (transport e i o)) →
  exchanges (validation_retry_with_backoff e curl max w).2
  = (exchanges w + Z.to_nat max)%nat.
Proof.
  intros He. unfold validation_retry_with_backoff.
  apply retry_loop_server_errors; [assumption|f_equal; lia].
Qed.

(** C1, evaluated.  With the default [max_retries = 3] and a transport
    that answers 503 every time, a validation makes three exchanges, with
    sleeps of 1 and 2 seconds between them; it returns [CURLE_OK] and
    reports code 503 in the error structure.  The metric it records has
    [retry_count = 0]. *)
Theorem always_503_three_exchanges :
  let r := curl_validation_enhanced (stub (http 503 "Service Unavailable"))
             (Some 100%nat) (Some "validations/accounts") (Some "{}")
             (Some blank_error) initial_world in
  max_retries (global_config initial_world) = 3
  ∧ exchanges r.2 = 3%nat
  ∧ slept r.2 = [2; 1]
  ∧ r.1.1 = CURLE_OK
  ∧ code <$> r.1.2 = Some 503
  ∧ message <$> r.1.2 = Some (Some "HTTP 503")
  ∧ retry_count <$> metrics_buffer r.2 = [0].
Proof. vm_compute. repeat split. Qed.

(** ** Argument check *)

(** C5, as the code has it.  When [curl], [endpoint] or [payload] is
    NULL the call returns [CURLE_BAD_FUNCTION_ARGUMENT] at once, fills the
    error structure (when there is one) with code 400, and leaves the
    whole state as it was: no cache access, no handle taken, no exchange. *)
Theorem null_argument_rejected
    (e : env) (curl : option CURL) (endpoint payload : option string)
    (error : option validation_error_t) (w : world) :
  curl = None ∨ endpoint = None ∨ payload = None →
  curl_validation_enhanced e curl endpoint payload error w
  = ((CURLE_BAD_FUNCTION_ARGUMENT,
      (λ err, {| code := 400;
                 message := Some "Invalid parameters";
                 details := Some "curl, endpoint, or payload is NULL";
                 timestamp := Some (strftime e (now w));
                 request_id := request_id err |}) <$> error),
     w).
Proof.
  intros H. unfold curl_validation_enhanced.
  destruct curl, endpoint, payload, error; try reflexivity;
    destruct H as [H|[H|H]]; discriminate H.
Qed.

Lemma null_argument_rejected_witness :
  curl_validation_enhanced (stub (http 200 verification_body))
    (Some 100%nat) None (Some "{}") (Some blank_error) initial_world
  = ((CURLE_BAD_FUNCTION_ARGUMENT,
      Some {| code := 400;
              message := Some "Invalid parameters";
              details := Some "curl, endpoint, or payload is NULL";
              timestamp := Some "2023-11-14 22:13:20";
              request_id := None |}),
     initial_world).
Proof.
  apply (null_argument_rejected (stub (http 200 verification_body))
           (Some 100%nat) None (Some "{}") (Some blank_error) initial_world).
  right; left; reflexivity.
Defined.

(** C5 as stated fails: an empty endpoint and an empty payload pass
    the check.  The call looks in the cache, takes a handle, makes an
    exchange and returns [CURLE_OK]. *)
Lemma empty_strings_pass_the_check :
  let r := curl_validation_enhanced (stub (http 200 verification_body))
             (Some 100%nat) (Some EmptyString) (Some EmptyString)
             (Some blank_error) initial_world in
  r.1.1 = CURLE_OK
  ∧ r.1.1 ≠ CURLE_BAD_FUNCTION_ARGUMENT
  ∧ exchanges r.2 = 1%nat
  ∧ created r.2 = 1%nat
  ∧ keys r.2 = [":"].
Proof. vm_compute. repeat split. discriminate. Qed.

(** ** Configuration *)

(** What one string of the configuration is after the update. *)
Lemma replace_string_spec (old new : char_ptr) :
  replace_string old new
  = match str new, old with
    | None, _ => Some old
    | Some s, literal _ => None
    | Some s, _ => Some (allocated s)
    end.
Proof. destruct new, old; reflexivity. Qed.



(** ** Response cache *)

(** What the search loop does, by the place of the first entry with the
    key. *)
Lemma cache_search_absent (k : string) (t : Z) (current : list cache_entry_t) :
  ∀ prev, Forall (λ x, key x ≠ k) current →
          cache_search k t prev current = (None, prev ++ current).
Proof.
  induction current as [|c next IH]; intros prev H; simpl.
  - rewrite app_nil_r. reflexivity.
  - inversion H as [|? ? Hc Hn]; subst.
    destruct (String.eqb_spec (key c) k); [contradiction|].
    rewrite IH by assumption. rewrite <- app_assoc. reflexivity.
Qed.

Lemma cache_search_found (k : string) (t : Z) (c : cache_entry_t)
    (post : list cache_entry_t) :
  key c = k →
  ∀ pre prev, Forall (λ x, key x ≠ k) pre →
    cache_search k t prev (pre ++ c :: post)
    = if t <? expiry c
      then (Some (response c), c :: (prev ++ pre) ++ post)
      else (None, (prev ++ pre) ++ post).
Proof.
  intros Hk. induction pre as [|p pre IH]; intros prev H; simpl.
  - rewrite Hk, String.eqb_refl, app_nil_r.
    destruct prev; reflexivity.
  - inversion H as [|? ? Hp Hn]; subst.
    destruct (String.eqb_spec (key p) (key c)); [contradiction|].
    rewrite IH by assumption. rewrite <- !app_assoc. reflexivity.
Qed.

(** Every list splits at the first entry with the key, if there is one. *)
Lemma first_entry_split (k : string) (l : list cache_entry_t) :
  Forall (λ x, key x ≠ k) l
  ∨ ∃ pre c post, l = pre ++ c :: post ∧ key c = k
                  ∧ Forall (λ x, key x ≠ k) pre.
Proof.
  induction l as [|a l IH]; [left; constructor|].
  destruct (String.eqb_spec (key a) k) as [E|N].
  - right. exists [], a, l. auto.
  - destruct IH as [H|(pre & c & post & -> & Hc & Hp)].
    + left. constructor; assumption.
    + right. exists (a :: pre), c, post. auto.
Qed.

Lemma set_cache_same (w : world) : set_cache (cache_head w) w = w.
Proof. destruct w; reflexivity. Qed.

(** The lookup, by the place of the first entry with the key. *)
Lemma lookup_at_split (w : world) (k : string)
    (pre : list cache_entry_t) (c : cache_entry_t) (post : list cache_entry_t) :
  enable_caching (global_config w) = true →
  cache_head w = pre ++ c :: post → key c = k →
  Forall (λ x, key x ≠ k) pre →
  (now w < expiry c →
   get_cached_response k w = (Some (response c), set_cache (c :: pre ++ post) w))
  ∧ (expiry c ≤ now w →
     get_cached_response k w = (None, set_cache (pre ++ post) w)).
Proof.
  intros Hen Hsplit Hk Hpre. unfold get_cached_response.
  rewrite Hen, Hsplit. cbn [negb].
  rewrite (cache_search_found k (now w) c post Hk pre [] Hpre). cbn [app].
  split; intros Ht.
  - replace (now w <? expiry c) with true by (symmetry; apply Z.ltb_lt; lia).
    reflexivity.
  - replace (now w <? expiry c) with false by (symmetry; apply Z.ltb_ge; lia).
    reflexivity.
Qed.

(** C7.  With caching enabled, in every state: when the first entry
    with the key has its expiry strictly after the current time, the
    lookup returns a copy of its response and moves it to the front;
    when that entry's expiry is not after the current time, the lookup
    unlinks it and returns NULL; when no entry has the key, the lookup
    returns NULL and leaves the list alone.  A lookup right after a store
    of the same key, with the clock unchanged, returns the stored value.
    Where the keys are pairwise distinct, any entry with the key is that
    first entry: not expired, it is returned and found at the front
    afterwards; expired, it is gone afterwards and NULL is returned. *)
Theorem lookup_contract (w : world) (k : string) :
  enable_caching (global_config w) = true →
  (∀ pre c post,
      cache_head w = pre ++ c :: post → key c = k →
      Forall (λ x, key x ≠ k) pre →
      (now w < expiry c →
       get_cached_response k w = (Some (response c), set_cache (c :: pre ++ post) w))
      ∧ (expiry c ≤ now w →
         get_cached_response k w = (None, set_cache (pre ++ post) w)))
  ∧ (Forall (λ x, key x ≠ k) (cache_head w) →
     get_cached_response k w = (None, w))
  ∧ (∀ v, let w' := (cache_response k v w).2 in
          get_cached_response k w' = (Some v, w'))
  ∧ (∀ c, NoDup (keys w) → c ∈ cache_head w → key c = k →
          (now w < expiry c →
           (get_cached_response k w).1 = Some (response c)
           ∧ head (cache_head (get_cached_response k w).2) = Some c)
          ∧ (expiry c ≤ now w →
             (get_cached_response k w).1 = None
             ∧ c ∉ cache_head (get_cached_response k w).2)).
Proof.
  intros Hen.
  assert (∀ pre c post,
      cache_head w = pre ++ c :: post → key c = k →
      Forall (λ x, key x ≠ k) pre →
      (now w < expiry c →
       get_cached_response k w = (Some (response c), set_cache (c :: pre ++ post) w))
      ∧ (expiry c ≤ now w →
         get_cached_response k w = (None, set_cache (pre ++ post) w))) as Hfound;
    [|split; [exact Hfound|split; [|split]]].
  - intros pre c post Hsplit Hk Hpre. unfold get_cached_response.
    rewrite Hen, Hsplit. simpl negb. cbv iota.
    rewrite (cache_search_found k (now w) c post Hk pre [] Hpre). simpl.
    split; intros Ht.
    + replace (now w <? expiry c) with true by (symmetry; apply Z.ltb_lt; lia).
      reflexivity.
    + replace (now w <? expiry c) with false by (symmetry; apply Z.ltb_ge; lia).
      reflexivity.
  - intros Habs. unfold get_cached_response. rewrite Hen. simpl negb. cbv iota.
    rewrite cache_search_absent by assumption. simpl.
    rewrite set_cache_same. reflexivity.
  - intros v. unfold cache_response. rewrite Hen. simpl.
    unfold get_cached_response. simpl. rewrite Hen. simpl.
    rewrite String.eqb_refl.
    replace (now w <? now w + CACHE_TTL) with true
      by (symmetry; apply Z.ltb_lt; unfold CACHE_TTL; lia).
    reflexivity.
  - intros c Hnd Hin Hk.
    apply list_elem_of_split in Hin as (pre & post & Hsplit).
    unfold keys in Hnd. rewrite Hsplit, fmap_app, fmap_cons in Hnd.
    apply NoDup_app in Hnd as (_ & Hdisj & Hnd).
    apply NoDup_cons in Hnd as (Hpost & _).
    assert (Forall (λ x, key x ≠ k) pre) as Hpre.
    { apply Forall_forall. intros x Hx Hkx. apply (Hdisj (key x)).
      - apply list_elem_of_fmap. eauto.
      - rewrite Hkx, <- Hk. left. }
    destruct (Hfound pre c post Hsplit Hk Hpre) as [Hhit Hexp].
    split; intros Ht.
    + rewrite (Hhit Ht). auto.
    + rewrite (Hexp Ht). split; [reflexivity|]. simpl.
      intros Hin. apply elem_of_app in Hin as [Hin|Hin].
      * rewrite Forall_forall in Hpre. exact (Hpre c Hin Hk).
      * apply Hpost. apply list_elem_of_fmap. eauto.
Qed.

(** C7 at a cache of three entries: the second one has the key, is not
    expired, and comes to the front. *)
Lemma lookup_contract_witness :
  get_cached_response "k" three_entries
  = (Some "rk", set_cache [entry_k; entry_a; entry_b] three_entries).
Proof.
  destruct (lookup_contract three_entries "k" eq_refl) as [Hfound _].
  destruct (Hfound [entry_a] entry_k [entry_b] eq_refl eq_refl) as [Hhit _].
  - constructor; [discriminate|constructor].
  - apply Hhit. reflexivity.
Defined.

(** *** Distinct keys *)

Lemma remove_last_entry_sublist (l : list cache_entry_t) :
  remove_last_entry l `sublist_of` l.
Proof.
  unfold remove_last_entry. destruct l as [|a [|b l]]; try reflexivity.
  rewrite removelast_firstn_len. apply sublist_take.
Qed.

Lemma search_keeps_keys_distinct (k : string) (t : Z) (l : list cache_entry_t) :
  NoDup (key <$> l) →
  NoDup (key <$> (cache_search k t [] l).2)
  ∧ ((cache_search k t [] l).1 = None → k ∉ key <$> (cache_search k t [] l).2).
Proof.
  intros Hnd. destruct (first_entry_split k l) as [Habs|(pre & c & post & -> & Hc & Hpre)].
  - rewrite cache_search_absent by assumption. simpl. split; [assumption|].
    intros _ Hin. apply list_elem_of_fmap in Hin as (x & -> & Hx).
    rewrite Forall_forall in Habs. exact (Habs x Hx eq_refl).
  - rewrite (cache_search_found k t c post Hc pre [] Hpre). simpl.
    rewrite fmap_app, fmap_cons in Hnd.
    apply NoDup_app in Hnd as (Hn1 & Hdisj & Hn2).
    apply NoDup_cons in Hn2 as (Hc2 & Hn2).
    assert (NoDup (key <$> pre ++ post)) as Hrest.
    { rewrite fmap_app. apply NoDup_app. repeat split; try assumption.
      intros x Hx Hx'. apply (Hdisj x Hx). right. assumption. }
    destruct (t <? expiry c); simpl.
    + split; [|discriminate].
      apply NoDup_cons. split; [|assumption].
      rewrite fmap_app. intros Hin. apply elem_of_app in Hin as [Hin|Hin].
      * apply (Hdisj _ Hin). left.
      * contradiction.
    + split; [assumption|]. intros _.
      rewrite fmap_app. intros Hin. apply elem_of_app in Hin as [Hin|Hin].
      * apply list_elem_of_fmap in Hin as (x & Hkx & Hx).
        rewrite Forall_forall in Hpre. exact (Hpre x Hx (eq_sym Hkx)).
      * rewrite <- Hc in Hin. contradiction.
Qed.

Lemma hoare_bind {A B} (P : world → Prop) (Q : A → world → Prop)
    (R : B → world → Prop) (m : M A) (k : A → M B) :
  hoare P m Q → (∀ a, hoare (Q a) (k a) R) → hoare P (m ≫= k) R.
Proof.
  intros Hm Hk w HP. rewrite bind_run. apply Hk, Hm, HP.
Qed.

Lemma hoare_ret {A} (P : world → Prop) (a : A) :
  hoare P (mret a : M A) (λ _, P).
Proof. intros w HP. exact HP. Qed.

Lemma hoare_keeps {A X} (f : world → X) (P : world → Prop) (m : M A) :
  keeps f m → (∀ w w', f w = f w' → P w → P w') → hoare P m (λ _, P).
Proof.
  intros Hk HP w Hw. apply (HP w); [symmetry; apply Hk|assumption].
Qed.

Lemma cache_kept_sleep s : keeps cache_view (sleep s).
Proof. keeps_prim. Qed.
Lemma cache_kept_perform e curl : keeps cache_view (curl_easy_perform e curl).
Proof. keeps_prim. Qed.
Lemma cache_kept_setopt curl r : keeps cache_view (curl_easy_setopt curl r).
Proof. keeps_prim. Qed.
Lemma cache_kept_acquire e : keeps cache_view (get_connection_from_pool e).
Proof. keeps_prim. Qed.
Lemma cache_kept_release curl : keeps cache_view (return_connection_to_pool curl).
Proof. keeps_prim. Qed.
Lemma cache_kept_record x : keeps cache_view (record_metrics x).
Proof. keeps_prim. Qed.
Lemma cache_kept_retry e curl max :
  keeps cache_view (validation_retry_with_backoff e curl max).
Proof.
  apply keeps_retry_loop; auto using cache_kept_sleep, cache_kept_perform.
Qed.

#[local] Hint Resolve cache_kept_sleep cache_kept_perform cache_kept_setopt
  cache_kept_acquire cache_kept_release cache_kept_record cache_kept_retry
  : keeps.

Lemma distinct_of_view (w w' : world) :
  cache_view w = cache_view w' → NoDup (keys w) → NoDup (keys w').
Proof. unfold cache_view, keys. intros [= -> _]. auto. Qed.

Lemma distinct_without_of_view (k : string) (w w' : world) :
  cache_view w = cache_view w' → distinct_without k w → distinct_without k w'.
Proof. unfold cache_view, distinct_without, keys. intros [= -> ->]. auto. Qed.

Lemma lookup_keeps_keys_distinct (k : string) :
  hoare (λ w, NoDup (keys w)) (get_cached_response k)
        (λ r w, match r with
                | Some _ => NoDup (keys w)
                | None => distinct_without k w
                end).
Proof.
  intros w Hnd. unfold get_cached_response.
  destruct (enable_caching (global_config w)) eqn:Hen; simpl.
  - destruct (search_keeps_keys_distinct k (now w) (cache_head w) Hnd) as [H1 H2].
    destruct (cache_search k (now w) [] (cache_head w)) as [[v|] l]; simpl in *.
    + exact H1.
    + split; [exact H1|]. intros _. apply H2. reflexivity.
  - split; [exact Hnd|]. rewrite Hen. discriminate.
Qed.

Lemma store_keeps_keys_distinct (k v : string) :
  hoare (distinct_without k) (cache_response k v) (λ _ w, NoDup (keys w)).
Proof.
  intros w [Hnd Hk]. unfold cache_response.
  destruct (enable_caching (global_config w)); simpl; [|exact Hnd].
  specialize (Hk eq_refl). unfold keys in *. simpl.
  apply NoDup_cons.
  destruct (100 <=? _); [|auto].
  pose proof (remove_last_entry_sublist (cache_head w)) as Hsub.
  apply (fmap_sublist key) in Hsub. split.
  - intros Hin. apply Hk. eapply elem_of_sublist; eassumption.
  - eapply sublist_NoDup; eassumption.
Qed.

(** The cache after a store, written out: a new first entry before the
    entries there were, the last of which is dropped from a list of a
    hundred or more.  No entry is looked for, none is overwritten. *)
Lemma store_prepends (k v : string) (w : world) :
  enable_caching (global_config w) = true →
  cache_head (cache_response k v w).2
  = {| key := k; response := v; expiry := now w + CACHE_TTL |}
    :: (if 100 <=? count_entries 100 (cache_head w)
        then remove_last_entry (cache_head w) else cache_head w).
Proof. intros Hen. unfold cache_response. rewrite Hen. reflexivity. Qed.

(** C8, as the code has it.  Pairwise distinct keys survive a lookup,
    survive a store of a key for which a lookup just returned NULL (the
    cache and the configuration being what the lookup left), and so
    survive every call of [curl_validation_enhanced], which stores in
    no other way. *)
Theorem keys_stay_distinct
    (e : env) (curl : option CURL) (endpoint payload : option string)
    (error : option validation_error_t) (k v : string) (w : world) :
  NoDup (keys w) →
  NoDup (keys (get_cached_response k w).2)
  ∧ (∀ w', (get_cached_response k w).1 = None →
           cache_view w' = cache_view (get_cached_response k w).2 →
           NoDup (keys (cache_response k v w').2))
  ∧ NoDup (keys (curl_validation_enhanced e curl endpoint payload error w).2).
Proof.
  intros Hnd. split; [|split].
  - pose proof (lookup_keeps_keys_distinct k w Hnd) as H.
    destruct (get_cached_response k w) as [[r|] w1]; simpl in *; [|destruct H]; auto.
  - intros w' Hmiss Hview.
    pose proof (lookup_keeps_keys_distinct k w Hnd) as H.
    rewrite Hmiss in H.
    apply store_keeps_keys_distinct.
    eapply distinct_without_of_view; [symmetry|]; eassumption.
  - revert w Hnd.
    change (hoare (λ w, NoDup (keys w))
                  (curl_validation_enhanced e curl endpoint payload error)
                  (λ _ w, NoDup (keys w))).
    assert (∀ A (m : M A), keeps cache_view m →
              hoare (λ w, NoDup (keys w)) m (λ _ w, NoDup (keys w))) as Hd.
    { intros A m Hm. eapply hoare_keeps; [exact Hm|exact distinct_of_view]. }
    assert (∀ k A (m : M A), keeps cache_view m →
              hoare (distinct_without k) m (λ _, distinct_without k)) as Hw.
    { intros k' A m Hm. eapply hoare_keeps; [exact Hm|apply distinct_without_of_view]. }
    unfold curl_validation_enhanced.
    destruct curl as [c|]; [destruct endpoint as [ep|]; [destruct payload as [pl|]|]|];
      try solve [apply Hd; repeat keeps_step].
    eapply hoare_bind; [apply lookup_keeps_keys_distinct|].
    intros [cached|]; [apply hoare_ret|].
    eapply hoare_bind; [apply Hw; auto with keeps|].
    intros [connection|].
    + eapply hoare_bind; [apply Hw; auto with keeps|]. intros g.
      eapply hoare_bind; [apply Hw; auto with keeps|]. intros previous.
      eapply hoare_bind; [apply Hw; auto with keeps|]. intros ?.
      eapply hoare_bind; [apply Hw; auto with keeps|]. intros start_time.
      eapply hoare_bind; [apply Hw; auto with keeps|]. intros r.
      cbv zeta.
      eapply hoare_bind; [apply Hw; auto with keeps|]. intros end_time.
      eapply hoare_bind; [apply Hw; auto with keeps|]. intros ?.
      eapply hoare_bind with (Q := λ _ w, NoDup (keys w)).
      * destruct (_ =? CURLE_OK).
        -- eapply hoare_bind; [apply Hw; auto with keeps|]. intros response_code.
           destruct (is_2xx response_code).
           ++ eapply hoare_bind; [apply store_keeps_keys_distinct|].
              intros ?. apply hoare_ret.
           ++ intros w0 [H0 _]. revert w0 H0. apply Hd. auto with keeps.
        -- intros w0 [H0 _]. revert w0 H0. apply Hd. auto with keeps.
      * intros err. apply Hd. repeat keeps_step.
    + intros w0 [H0 _]. revert w0 H0. apply Hd. repeat keeps_step.
Qed.

(** C8 as stated fails: two stores of one key leave two entries with
    that key. *)
Lemma store_twice_duplicates_key :
  let w2 := (cache_response "k" "second"
               (cache_response "k" "first" initial_world).2).2 in
  (response <$> cache_head w2) = ["second"; "first"]
  ∧ keys w2 = ["k"; "k"]
  ∧ ¬ NoDup (keys w2).
Proof.
  vm_compute. repeat split.
  intros H. apply NoDup_cons in H as [H _]. apply H. left.
Qed.

Lemma keys_stay_distinct_witness :
  NoDup (keys (get_cached_response "k" three_entries).2)
  ∧ NoDup (keys (curl_validation_enhanced account_stub (Some 100%nat)
                   (Some account_endpoint) (Some account_json) None
                   three_entries).2).
Proof.
  destruct (keys_stay_distinct account_stub (Some 100%nat)
              (Some account_endpoint) (Some account_json) None "k" "v"
              three_entries) as (H1 & _ & H3).
  - apply (bool_decide_unpack _). vm_compute. exact I.
  - split; assumption.
Defined.

(** ** Connection pool *)

Lemma omap_id_Some (hs : list CURL) : omap id (Some <$> hs) = hs.
Proof.
  induction hs as [|h hs IH]; [reflexivity|].
  change (h :: omap id (Some <$> hs) = h :: hs). rewrite IH. reflexivity.
Qed.

Lemma idle_handles_pool_holds (n : nat) (hs : list CURL) (i : Z) :
  idle_handles (pool_holds n hs i) = hs.
Proof.
  unfold idle_handles, idle_slots, pool_holds. simpl.
  rewrite Nat2Z.id, take_app_length' by (rewrite length_fmap; reflexivity).
  apply omap_id_Some.
Qed.

Lemma release_into_empty (n : nat) (h : CURL) (w : world) :
  enable_connection_pooling (global_config w) = true →
  connection_pool w = empty_pool (Z.of_nat n) → (0 < n)%nat →
  return_connection_to_pool (Some h) w = ((), set_pool (pool_holds n [h] 0) w).
Proof.
  intros Hen Hp Hn. unfold return_connection_to_pool. rewrite Hen, Hp. simpl.
  replace (0 <? Z.of_nat n) with true by (symmetry; apply Z.ltb_lt; lia).
  rewrite Nat2Z.id. destruct n as [|n]; [lia|].
  unfold pool_holds. simpl. rewrite Nat.sub_0_r. reflexivity.
Qed.

Lemma release_with_room (n : nat) (hs : list CURL) (i : Z) (h : CURL) (w : world) :
  enable_connection_pooling (global_config w) = true →
  connection_pool w = pool_holds n hs i → (length hs < n)%nat →
  return_connection_to_pool (Some h) w
  = ((), set_pool (pool_holds n (hs ++ [h]) i) w).
Proof.
  intros Hen Hp Hn. unfold return_connection_to_pool. rewrite Hen, Hp. simpl.
  replace (_ <? _) with true by (symmetry; apply Z.ltb_lt; lia).
  rewrite Nat2Z.id. unfold pool_holds. do 3 f_equal.
  - f_equal. rewrite insert_app_r_alt by (rewrite length_fmap; lia).
    rewrite length_fmap, Nat.sub_diag, length_app. simpl.
    replace (n - length hs)%nat with (S (n - (length hs + 1))) by lia.
    simpl. rewrite fmap_app, <- app_assoc. reflexivity.
  - rewrite length_app. simpl. lia.
Qed.

Lemma release_when_full (n : nat) (hs : list CURL) (i : Z) (h : CURL) (w : world) :
  connection_pool w = pool_holds n hs i → length hs = n →
  return_connection_to_pool (Some h) w = curl_easy_cleanup (Some h) w.
Proof.
  intros Hp Hn. unfold return_connection_to_pool. rewrite Hp. simpl.
  destruct (negb _); [reflexivity|].
  replace (_ <? _) with false by (symmetry; apply Z.ltb_ge; lia).
  reflexivity.
Qed.

Lemma acquire_from_idle (e : env) (n : nat) (hs : list CURL) (i : Z) (w : world) :
  enable_connection_pooling (global_config w) = true →
  connection_pool w = pool_holds n hs i → hs ≠ [] →
  get_connection_from_pool e w
  = (hs !! Z.to_nat i,
     set_pool (pool_holds n hs (Z.rem (i + 1) (Z.of_nat (length hs)))) w).
Proof.
  intros Hen Hp Hne. unfold get_connection_from_pool. rewrite Hen, Hp. simpl.
  replace (_ =? 0) with false
    by (symmetry; apply Z.eqb_neq; destruct hs; [congruence|simpl; lia]).
  f_equal. destruct (decide (Z.to_nat i < length hs)%nat) as [Hlt|Hge].
  - rewrite lookup_app_l by (rewrite length_fmap; exact Hlt).
    rewrite list_lookup_fmap. destruct (hs !! Z.to_nat i); reflexivity.
  - rewrite (lookup_ge_None_2 hs) by lia.
    rewrite lookup_app_r by (rewrite length_fmap; lia).
    destruct (replicate _ _ !! _) as [o|] eqn:E; [|reflexivity].
    apply lookup_replicate in E as [-> _]. reflexivity.
Qed.

Lemma acquire_fresh (e : env) (w : world) :
  enable_connection_pooling (global_config w) = false
  ∨ pool_size (connection_pool w) = 0 →
  get_connection_from_pool e w = curl_easy_init e w.
Proof.
  intros H. unfold get_connection_from_pool.
  destruct H as [-> | ->]; [reflexivity|].
  rewrite orb_true_r. reflexivity.
Qed.

Lemma rounds_end (e : env) (j : nat) :
  ∀ w, (rounds e (S j) w).2 = (acquire_release e (rounds e j w).2).2.
Proof.
  induction j as [|j IH]; intros w.
  - simpl. rewrite bind_run. reflexivity.
  - change (rounds e (S (S j))) with (acquire_release e;; rounds e (S j)).
    rewrite bind_run, IH.
    change (rounds e (S j)) with (acquire_release e;; rounds e j).
    rewrite (bind_run (acquire_release e) _ w). reflexivity.
Qed.

Lemma first_round (e : env) (n : nat) (w : world) :
  enable_connection_pooling (global_config w) = true →
  connection_pool w = empty_pool (Z.of_nat n) →
  init_ok e (created w) = true → (0 < n)%nat →
  warm n (created w) 1 (cleaned w) (acquire_release e w).2.
Proof.
  intros Hen Hp Hok Hn. unfold acquire_release. rewrite bind_run.
  rewrite acquire_fresh by (right; rewrite Hp; reflexivity).
  unfold curl_easy_init. rewrite Hok. simpl.
  rewrite (release_into_empty n) by (simpl; assumption). simpl.
  repeat split; try assumption. exists 0. split; [lia|reflexivity].
Qed.

Lemma next_round (e : env) (n : nat) (h : CURL) (k : nat) (cl : list CURL) (w : world) :
  warm n h k cl w → (0 < k)%nat → (k < n)%nat →
  warm n h (S k) cl (acquire_release e w).2.
Proof.
  intros (Hen & Hcl & Hcr & i & Hi & Hp) Hk Hn.
  unfold acquire_release. rewrite bind_run.
  rewrite (acquire_from_idle e n (replicate k h) i w Hen Hp)
    by (destruct k; [lia|discriminate]).
  simpl. rewrite lookup_replicate_2 by lia.
  rewrite length_replicate.
  rewrite (release_with_room n (replicate k h) (Z.rem (i + 1) (Z.of_nat k)))
    by (simpl; rewrite ?length_replicate; auto).
  simpl. repeat split; try assumption.
  exists (Z.rem (i + 1) (Z.of_nat k)). rewrite <- replicate_S_end. split; [|reflexivity].
  pose proof (Z.rem_bound_pos (i + 1) (Z.of_nat k)). lia.
Qed.

Lemma more_rounds (e : env) (n : nat) (h : CURL) (cl : list CURL) (j : nat) :
  ∀ k w, warm n h k cl w → (0 < k)%nat → (k + j ≤ n)%nat →
         warm n h (k + j) cl (rounds e j w).2.
Proof.
  induction j as [|j IH]; intros k w Hw Hk Hn.
  - rewrite Nat.add_0_r. exact Hw.
  - rewrite rounds_end. replace (k + S j)%nat with (S (k + j)) by lia.
    apply next_round; [apply IH; [assumption|lia|lia]|lia|lia].
Qed.

Lemma last_round (e : env) (n : nat) (h : CURL) (cl : list CURL) (w : world) :
  warm n h n cl w → (0 < n)%nat →
  let w' := (acquire_release e w).2 in
  connection_pool w' = pool_holds n (replicate n h) (current_index (connection_pool w'))
  ∧ cleaned w' = h :: cl
  ∧ created w' = S h.
Proof.
  intros (Hen & Hcl & Hcr & i & Hi & Hp) Hn.
  unfold acquire_release. rewrite bind_run.
  rewrite (acquire_from_idle e n (replicate n h) i w Hen Hp)
    by (destruct n; [lia|discriminate]).
  simpl. rewrite lookup_replicate_2 by lia.
  rewrite (release_when_full n (replicate n h) (Z.rem (i + 1) (Z.of_nat (length (replicate n h)))))
    by (simpl; rewrite ?length_replicate; auto).
  simpl. rewrite Hcl, Hcr. auto.
Qed.

(** One borrower, again and again.  From an empty pool of capacity [n],
    [n + 1] rounds of taking a handle and giving it straight back create
    one handle in all: [get_connection_from_pool] leaves it in the array,
    so every round but the last writes it to a further slot, and the last
    round cleans it up.  The [n] slots in use all hold that one handle,
    which has been cleaned up. *)
Lemma pool_rounds_reuse_one_handle (e : env) (n : nat) (w : world) :
  enable_connection_pooling (global_config w) = true →
  connection_pool w = empty_pool (Z.of_nat n) →
  init_ok e (created w) = true →
  let w' := (rounds e (S n) w).2 in
  pool_size (connection_pool w') = Z.of_nat n
  ∧ length (idle_handles (connection_pool w')) = n
  ∧ idle_handles (connection_pool w') = replicate n (created w)
  ∧ cleaned w' = created w :: cleaned w
  ∧ created w' = S (created w).
Proof.
  intros Hen Hp Hok. destruct n as [|n].
  - simpl. rewrite !bind_run. simpl. unfold acquire_release. rewrite bind_run.
    rewrite acquire_fresh by (right; rewrite Hp; reflexivity).
    unfold curl_easy_init. rewrite Hok. simpl.
    unfold return_connection_to_pool. simpl. rewrite Hen, Hp. simpl.
    auto.
  - cbv zeta. rewrite rounds_end.
    assert (warm (S n) (created w) (S n) (cleaned w) (rounds e (S n) w).2) as Hwarm.
    { change (rounds e (S n)) with (acquire_release e;; rounds e n).
      rewrite bind_run.
      apply (more_rounds e (S n) (created w) (cleaned w) n 1); [|lia|lia].
      apply first_round; auto; lia. }
    destruct (last_round e (S n) (created w) (cleaned w) _ Hwarm) as (H1 & H2 & H3);
      [lia|].
    rewrite H1, idle_handles_pool_holds, length_replicate.
    unfold pool_holds at 1. simpl pool_size. rewrite length_replicate.
    auto.
Qed.

(** Three rounds at capacity 2. *)
Lemma pool_rounds_reuse_one_handle_at_2 :
  let w' := (rounds account_stub 3 (with_pool_capacity 2 initial_world)).2 in
  pool_size (connection_pool w') = 2
  ∧ length (idle_handles (connection_pool w')) = 2%nat
  ∧ idle_handles (connection_pool w') = [0%nat; 0%nat]
  ∧ cleaned w' = [0%nat]
  ∧ created w' = 1%nat.
Proof.
  apply (pool_rounds_reuse_one_handle account_stub 2
           (with_pool_capacity 2 initial_world)); reflexivity.
Qed.


(** Taking a handle from the idle slots never removes it from them. *)
Lemma acquire_keeps_idle_handles (e : env) (n : nat) (hs : list CURL) (i : Z)
    (w : world) :
  enable_connection_pooling (global_config w) = true →
  connection_pool w = pool_holds n hs i → hs ≠ [] →
  idle_handles (connection_pool (get_connection_from_pool e w).2) = hs.
Proof.
  intros Hen Hp Hne. rewrite (acquire_from_idle e n hs i w Hen Hp Hne). simpl.
  apply idle_handles_pool_holds.
Qed.

(** C3, evaluated.  After one round the pool holds handle 0.  Two calls
    of [get_connection_from_pool] with nothing given back in between
    both return handle 0, and handle 0 is in the pool all the while.  In
    a pool of capacity 1 the second round cleans handle 0 up, and the
    next call hands it out again. *)
Theorem acquire_twice_same_handle :
  let w1 := (acquire_release account_stub initial_world).2 in
  let a := get_connection_from_pool account_stub w1 in
  let b := get_connection_from_pool account_stub a.2 in
  let w2 := (rounds account_stub 2 (with_pool_capacity 1 initial_world)).2 in
  idle_handles (connection_pool w1) = [0%nat]
  ∧ a.1 = Some 0%nat
  ∧ idle_handles (connection_pool a.2) = [0%nat]
  ∧ b.1 = Some 0%nat
  ∧ a.1 = b.1
  ∧ cleaned w2 = [0%nat]
  ∧ (get_connection_from_pool account_stub w2).1 = Some 0%nat.
Proof. vm_compute. repeat split. Qed.

(** *** Several borrowers at once *)







(** ** The orchestrator, step by step *)

Ltac keeps_fresh :=
  let w := fresh "w" in
  intros w; unfold_prims; unfold_prims;
  repeat (rewrite ?bind_run; simpl;
          try match goal with
              | |- context [match ?x with _ => _ end] => destruct x
              end);
  reflexivity.

Ltac keeps_leaf :=
  first
    [ solve [unfold validation_retry_with_backoff; apply keeps_retry_loop;
             [keeps_fresh | intros ?; keeps_fresh]]
    | solve [keeps_fresh] ].

Ltac keeps_auto :=
  repeat lazymatch goal with
    | |- keeps _ (_ ≫= _) => apply keeps_bind; [|intros ?]
    | |- keeps _ (mret _) => apply keeps_ret
    | |- keeps _ (match ?x with _ => _ end) => destruct x
    | |- keeps _ (let _ := _ in _) => cbv zeta
    | |- keeps _ _ => keeps_leaf
    end.

(** The next call of the run leaves the view [f] alone: name its result
    and the state after it, and keep the equation. *)
Ltac kept f :=
  lazymatch goal with
  | |- context [let '(_, _) := ?m ?w in _] =>
    let H := fresh "Hkept" in
    assert (keeps f m) as H by keeps_auto;
    specialize (H w); destruct (m w) as [? ?]; cbn [snd fst] in H;
    cbv beta iota
  end.

Ltac readers :=
  unfold get_global_config, get_options, time, curl_easy_getinfo;
  cbv beta iota.

Lemma lookup_disabled (k : string) (w : world) :
  enable_caching (global_config w) = false → get_cached_response k w = (None, w).
Proof. intros H. unfold get_cached_response. rewrite H. reflexivity. Qed.

Lemma store_disabled (k v : string) (w : world) :
  enable_caching (global_config w) = false → cache_response k v w = ((), w).
Proof. intros H. unfold cache_response. rewrite H. reflexivity. Qed.

(** An invariant of the cache that the lookup and the store of "success"
    keep is kept by the whole of [curl_validation_enhanced]. *)
Lemma validation_cache_invariant (P : world → Prop)
    (e : env) (curl : option CURL) (endpoint payload : option string)
    (error : option validation_error_t) :
  (∀ w w', cache_view w = cache_view w' → P w → P w') →
  (∀ k, hoare P (get_cached_response k) (λ _, P)) →
  (∀ k, hoare P (cache_response k "success") (λ _, P)) →
  hoare P (curl_validation_enhanced e curl endpoint payload error) (λ _, P).
Proof.
  intros Hview Hlookup Hstore.
  assert (∀ A (m : M A), keeps cache_view m → hoare P m (λ _, P)) as Hk.
  { intros A m Hm. eapply hoare_keeps; [exact Hm|exact Hview]. }
  unfold curl_validation_enhanced.
  destruct curl as [c|]; [destruct endpoint as [ep|]; [destruct payload as [pl|]|]|];
    try solve [apply Hk; keeps_auto].
  eapply hoare_bind; [apply Hlookup|].
  intros [cached|]; [apply hoare_ret|].
  eapply hoare_bind; [apply Hk; keeps_auto|].
  intros [connection|]; [|apply Hk; keeps_auto].
  do 5 (eapply hoare_bind; [apply Hk; keeps_auto|]; intros ?).
  cbv zeta.
  do 2 (eapply hoare_bind; [apply Hk; keeps_auto|]; intros ?).
  eapply hoare_bind with (Q := λ _, P); [|intros ?; apply Hk; keeps_auto].
  destruct (_ =? CURLE_OK); [|apply Hk; keeps_auto].
  eapply hoare_bind; [apply Hk; keeps_auto|]. intros response_code.
  destruct (is_2xx response_code); [|apply Hk; keeps_auto].
  eapply hoare_bind; [apply Hstore|]. intros ?. apply hoare_ret.
Qed.

Lemma bind_let {A B} (m : M A) (k : A → M B) (w : world) :
  (m ≫= k) w = let '(a, w') := m w in k a w'.
Proof. reflexivity. Qed.

(** Stepping through a run that is the left side of equation [E]. *)
Ltac advance E := rewrite bind_let in E; cbv beta iota zeta in E.

Ltac kept_here E f :=
  cbv beta iota zeta in E;
  lazymatch type of E with
  | context [let '(_, _) := ?m ?w in _] =>
    let H := fresh "Hkept" in
    assert (keeps f m) as H by keeps_auto;
    specialize (H w); destruct (m w) as [? ?]; cbn [snd fst] in H;
    cbv beta iota zeta in E
  end.

Ltac kept_in E f := advance E; kept_here E f.

Ltac open_validation E :=
  unfold curl_validation_enhanced in E;
  unfold get_global_config, get_options, time, curl_easy_getinfo in E.

(** ** A successful validation and the cache *)

Lemma lookup_world (k : string) (w : world) :
  (get_cached_response k w).2
  = set_cache (cache_head (get_cached_response k w).2) w.
Proof.
  unfold get_cached_response. destruct (negb _); simpl.
  - destruct w; reflexivity.
  - destruct (cache_search _ _ _ _); reflexivity.
Qed.

Lemma acquire_set_cache (e : env) (l : list cache_entry_t) (w : world) :
  get_connection_from_pool e (set_cache l w)
  = ((get_connection_from_pool e w).1,
     set_cache l (get_connection_from_pool e w).2).
Proof.
  unfold get_connection_from_pool, curl_easy_init. simpl.
  destruct (_ || _); [destruct (init_ok _ _)|]; reflexivity.
Qed.







(** The cached path: the first entry of the list has the key and is not
    expired. *)
Lemma validation_hit
    (e : env) (c : CURL) (endpoint payload : string)
    (error : option validation_error_t) (w : world) (x : cache_entry_t) :
  enable_caching (global_config w) = true →
  head (cache_head w) = Some x →
  key x = cache_key_of endpoint payload →
  now w < expiry x →
  curl_validation_enhanced e (Some c) (Some endpoint) (Some payload) error w
  = ((CURLE_OK, error), w).
Proof.
  intros Hen Hhead Hkey Hfresh. unfold curl_validation_enhanced.
  destruct (cache_head w) as [|x' post] eqn:Hc; [discriminate|].
  injection Hhead as ->.
  destruct (lookup_at_split w (cache_key_of endpoint payload) [] x post
              Hen Hc Hkey ltac:(constructor)) as [Hhit _].
  rewrite bind_run, (Hhit Hfresh). simpl. rewrite <- Hc, set_cache_same.
  reflexivity.
Qed.

(** C4, as the code has it.  A validation that misses the cache, gets a
    handle and succeeds with a 2xx status, that is, returns [CURLE_OK]
    with the response code of the handle in 200..299, be it at the first
    exchange or after retries, leaves the error structure alone and puts
    at the front of the cache an entry with the key of the request, the
    fixed string "success" as its response and an expiry 300 seconds on.
    The same call at any time less than 300 seconds later returns
    [CURLE_OK] and changes nothing in the state: no exchange takes place.
    No body is stored and none is returned. *)
Theorem success_cached_then_served
    (e : env) (c : CURL) (endpoint payload : string)
    (error : option validation_error_t) (w : world) (conn : CURL) (d : Z) :
  enable_caching (global_config w) = true →
  (get_cached_response (cache_key_of endpoint payload) w).1 = None →
  (get_connection_from_pool e w).1 = Some conn →
  let r := curl_validation_enhanced e (Some c) (Some endpoint) (Some payload)
             error w in
  r.1.1 = CURLE_OK →
  is_2xx (default 0 (response_code r.2 !! conn)) = true →
  0 ≤ d < CACHE_TTL →
  let w' := tick d r.2 in
  r.1 = (CURLE_OK, error)
  ∧ head (cache_head r.2)
    = Some {| key := cache_key_of endpoint payload; response := "success";
              expiry := now r.2 + CACHE_TTL |}
  ∧ curl_validation_enhanced e (Some c) (Some endpoint) (Some payload) error w'
    = ((CURLE_OK, error), w').
Proof.
  intros Hen Hmiss Hconn. cbv zeta.
  destruct (curl_validation_enhanced _ _ _ _ _ w) as [res w'] eqn:E.
  cbn [fst snd]. intros Hok H2xx Hd.
  open_validation E.
  kept_in E (λ w, (global_config w, connection_pool w, created w)).
  cbn [fst snd] in *. subst o. injection Hkept as Hg0 Hp0 Hcr0.
  assert ((get_connection_from_pool e w0).1 = Some conn) as Hconn0.
  { rewrite <- Hconn. unfold get_connection_from_pool, curl_easy_init.
    rewrite Hg0, Hp0, Hcr0. repeat case_match; reflexivity. }
  kept_in E global_config.
  cbn [fst] in Hconn0. subst o.
  advance E. advance E.
  kept_in E global_config.
  advance E.
  kept_in E global_config.
  advance E.
  kept_in E global_config.
  advance E.
  assert (enable_caching (global_config w4) = true) as Hen4 by congruence.
  clear Hkept Hkept0 Hkept1 Hkept2 Hg0 Hp0 Hcr0.
  match type of E with context [?x =? CURLE_OK] =>
    set (code := x) in *; destruct (Z.eqb_spec code CURLE_OK) as [Ecode|Ecode] end.
  - advance E.
    destruct (is_2xx (default 0 (response_code w4 !! conn))) eqn:E2.
    + advance E. unfold cache_response in E. rewrite Hen4 in E.
      cbn [negb] in E. cbv beta iota zeta in E.
      rewrite ret_run in E. cbv beta iota zeta in E.
      kept_in E stored_view. unfold stored_view in Hkept.
      cbn [global_config cache_head now set_cache exchanges] in Hkept.
      injection Hkept as Hg Hx Hc Hn.
      injection E as <- <-. cbn [snd].
      split; [rewrite Ecode; reflexivity|].
      assert (head (cache_head w5)
              = Some {| key := cache_key_of endpoint payload;
                        response := "success";
                        expiry := now w5 + CACHE_TTL |}) as Hhead.
      { rewrite Hc, Hn. destruct (100 <=? _); reflexivity. }
      split; [exact Hhead|].
      eapply validation_hit.
      * change (global_config (tick d ?x)) with (global_config x).
        rewrite Hg. exact Hen4.
      * change (cache_head (tick d ?x)) with (cache_head x). exact Hhead.
      * reflexivity.
      * change (now (tick d ?x)) with (now x + d). cbn [expiry]. lia.
    + exfalso.
      kept_here E response_code.
      kept_in E response_code.
      injection E as _ <-. cbn [snd] in H2xx.
      rewrite Hkept0, Hkept, E2 in H2xx. discriminate H2xx.
  - exfalso.
    match type of E with context [let '(_, _) := ?m ?W in _] =>
      destruct (m W) as [err' w5] end.
    cbv beta iota zeta in E. advance E.
    match type of E with context [let '(_, _) := ?m ?W in _] =>
      destruct (m W) as [u' w6] end.
    injection E as <- _. cbn [fst] in Hok. contradiction.
Qed.

(** C4 for a request that is answered 503 first and 200 at the second
    exchange, and asked again 299 seconds later. *)
Lemma success_cached_then_served_witness :
  let e := scripted [unavailable] (http 200 verification_body) in
  let r := curl_validation_enhanced e (Some 100%nat)
             (Some account_endpoint) (Some account_json) None initial_world in
  (exchanges r.2 = 2%nat ∧ slept r.2 = [1])
  ∧ r.1 = (CURLE_OK, None)
  ∧ head (cache_head r.2)
    = Some {| key := cache_key_of account_endpoint account_json;
              response := "success"; expiry := now r.2 + CACHE_TTL |}
  ∧ curl_validation_enhanced e (Some 100%nat)
      (Some account_endpoint) (Some account_json) None (tick 299 r.2)
    = ((CURLE_OK, None), tick 299 r.2).
Proof.
  split; [split; reflexivity|].
  apply (success_cached_then_served
           (scripted [unavailable] (http 200 verification_body)) 100%nat
           account_endpoint account_json None initial_world 0%nat 299).
  - reflexivity.
  - reflexivity.
  - reflexivity.
  - reflexivity.
  - reflexivity.
  - unfold CACHE_TTL. lia.
Defined.

(** C4 as stated fails: after a validation answered with 200 and the
    verification body the one cache entry holds "success", not the body;
    the next identical call returns [CURLE_OK] and an untouched error
    structure, without an exchange and without a body. *)
Lemma cache_holds_literal_not_body :
  let r1 := curl_validation_enhanced account_stub (Some 100%nat)
              (Some account_endpoint) (Some account_json) None initial_world in
  let r2 := curl_validation_enhanced account_stub (Some 100%nat)
              (Some account_endpoint) (Some account_json) None (tick 10 r1.2) in
  r_body (transport account_stub 0 None) = verification_body
  ∧ r1.1 = (CURLE_OK, None)
  ∧ (response <$> cache_head r1.2) = ["success"]
  ∧ (verification_body ∉ response <$> cache_head r1.2)
  ∧ r2.1 = (CURLE_OK, None)
  ∧ exchanges r2.2 = exchanges r1.2.
Proof.
  vm_compute. repeat split.
  intros H. apply list_elem_of_singleton in H. discriminate H.
Qed.

(** * Further properties of the code *)

(** ** The retry engine, attempt by attempt *)

Lemma to_unsigned_backoff (rc : Z) :
  0 ≤ rc ≤ 21 → to_unsigned (Z.quot (1000 * 2 ^ rc) 1000) = 2 ^ rc.
Proof.
  intros H. rewrite Z.mul_comm, Z.quot_mul by lia. unfold to_unsigned.
  apply Z.mod_small. split; [apply Z.pow_nonneg; lia|].
  apply Z.pow_lt_mono_r; lia.
Qed.

Lemma wrap_int_backoff (rc : Z) :
  0 ≤ rc ≤ 20 → wrap_int (1000 * 2 ^ rc * 2) = 1000 * 2 ^ (rc + 1).
Proof.
  intros H. rewrite Z.pow_add_r by lia. change (2 ^ 1) with 2.
  unfold wrap_int. rewrite Z.mod_small; [lia|].
  assert (0 < 2 ^ rc) by (apply Z.pow_pos_nonneg; lia).
  assert (2 ^ rc ≤ 2 ^ 20) by (apply Z.pow_le_mono_r; lia).
  change (2 ^ 20) with 1048576 in *. change (2 ^ 31) with 2147483648.
  change (2 ^ 32) with 4294967296. lia.
Qed.

Lemma getinfo_after_perform (e : env) (curl : CURL) (w : world) :
  (curl_easy_getinfo curl (curl_easy_perform e curl w).2).1
  = r_status (transport e (exchanges w) (options w !! curl)).
Proof.
  unfold curl_easy_getinfo, curl_easy_perform. cbn [fst snd response_code].
  rewrite lookup_insert_eq. reflexivity.
Qed.

Lemma retry_step_final (e : env) (curl : CURL) (max : Z) (fuel : nat)
    (res : cval) (rc b : Z) (w : world) :
  rc < max →
  retryable (transport e (exchanges w) (options w !! curl)) = false →
  retry_loop e curl max (S fuel) res rc b w
  = (Value (r_code (transport e (exchanges w) (options w !! curl))),
     (curl_easy_perform e curl w).2).
Proof.
  intros Hrc Hf. cbn [retry_loop].
  replace (rc <? max) with true by (symmetry; apply Z.ltb_lt; lia).
  rewrite bind_run.
  change (curl_easy_perform e curl w).1
    with (r_code (transport e (exchanges w) (options w !! curl))).
  unfold retryable in Hf.
  destruct (r_code _ =? CURLE_OK).
  - rewrite bind_run, getinfo_after_perform.
    change (curl_easy_getinfo curl ?x).2 with x.
    rewrite Hf. destruct (_ && _); reflexivity.
  - rewrite Hf. reflexivity.
Qed.

Lemma retry_step_last (e : env) (curl : CURL) (max : Z) (fuel : nat)
    (res : cval) (rc b : Z) (w : world) :
  rc < max → max ≤ rc + 1 →
  retryable (transport e (exchanges w) (options w !! curl)) = true →
  retry_loop e curl max (S fuel) res rc b w
  = (Value (r_code (transport e (exchanges w) (options w !! curl))),
     (curl_easy_perform e curl w).2).
Proof.
  intros Hrc Hlast Hf. cbn [retry_loop].
  replace (rc <? max) with true by (symmetry; apply Z.ltb_lt; lia).
  rewrite bind_run.
  change (curl_easy_perform e curl w).1
    with (r_code (transport e (exchanges w) (options w !! curl))).
  unfold retryable in Hf.
  replace (rc + 1 <? max) with false by (symmetry; apply Z.ltb_ge; lia).
  destruct (r_code _ =? CURLE_OK).
  - rewrite bind_run, getinfo_after_perform.
    change (curl_easy_getinfo curl ?x).2 with x.
    rewrite Hf.
    replace (_ && _) with false
      by (symmetry; apply andb_false_iff; right; apply Z.ltb_ge;
          apply Z.leb_le in Hf; lia).
    destruct fuel; cbn [retry_loop]; [reflexivity|].
    replace (rc + 1 <? max) with false by (symmetry; apply Z.ltb_ge; lia).
    reflexivity.
  - rewrite Hf. reflexivity.
Qed.

Lemma retry_step_failed (e : env) (curl : CURL) (max : Z) (fuel : nat)
    (res : cval) (rc : Z) (w : world) :
  rc + 1 < max → 0 ≤ rc ≤ 20 →
  retryable (transport e (exchanges w) (options w !! curl)) = true →
  retry_loop e curl max (S fuel) res rc (1000 * 2 ^ rc) w
  = retry_loop e curl max fuel
      (Value (r_code (transport e (exchanges w) (options w !! curl))))
      (rc + 1) (1000 * 2 ^ (rc + 1)) (failed_attempt e curl (2 ^ rc) w).
Proof.
  intros Hrc Hb Hf. cbn [retry_loop].
  replace (rc <? max) with true by (symmetry; apply Z.ltb_lt; lia).
  rewrite bind_run.
  change (curl_easy_perform e curl w).1
    with (r_code (transport e (exchanges w) (options w !! curl))).
  unfold retryable in Hf.
  replace (rc + 1 <? max) with true by (symmetry; apply Z.ltb_lt; lia).
  rewrite to_unsigned_backoff, wrap_int_backoff by lia.
  destruct (r_code _ =? CURLE_OK).
  - rewrite bind_run, getinfo_after_perform.
    change (curl_easy_getinfo curl ?x).2 with x.
    rewrite Hf.
    replace (_ && _) with false
      by (symmetry; apply andb_false_iff; right; apply Z.ltb_ge;
          apply Z.leb_le in Hf; lia).
    rewrite bind_run. reflexivity.
  - rewrite Hf.
    rewrite bind_run. reflexivity.
Qed.

Lemma failed_attempt_exchanges e curl s w :
  exchanges (failed_attempt e curl s w) = S (exchanges w).
Proof. reflexivity. Qed.

Lemma failed_attempt_slept e curl s w :
  slept (failed_attempt e curl s w) = s :: slept w.
Proof. reflexivity. Qed.

Lemma failed_attempt_options e curl s w :
  options (failed_attempt e curl s w) = options w.
Proof. reflexivity. Qed.

Lemma retry_loop_then_final (e : env) (curl : CURL) (max : Z) (j : nat) :
  ∀ fuel res rc w,
    0 ≤ rc → rc + Z.of_nat j ≤ 21 → rc + Z.of_nat j < max → (j < fuel)%nat →
    (∀ i o, (i < j)%nat → retryable (transport e (exchanges w + i) o) = true) →
    (∀ o, retryable (transport e (exchanges w + j) o) = false) →
    let r := retry_loop e curl max fuel res rc (1000 * 2 ^ rc) w in
    exchanges r.2 = S (exchanges w + j)
    ∧ slept r.2 = backoff_log rc j ++ slept w
    ∧ r.1 = Value (r_code (transport e (exchanges w + j) (options w !! curl))).
Proof.
  induction j as [|j IH]; intros fuel res rc w Hrc Hb Hmax Hfuel Hfail Hfin;
    (destruct fuel as [|fuel]; [lia|]); cbv zeta.
  - rewrite Nat.add_0_r in *.
    rewrite retry_step_final by (auto; lia). auto.
  - rewrite retry_step_failed;
      [|lia|lia|rewrite <- (Nat.add_0_r (exchanges w)); apply Hfail; lia].
    destruct (IH fuel
                (Value (r_code (transport e (exchanges w) (options w !! curl))))
                (rc + 1) (failed_attempt e curl (2 ^ rc) w))
      as (H1 & H2 & H3); try lia.
    + intros i o Hi. rewrite failed_attempt_exchanges.
      replace (S (exchanges w) + i)%nat with (exchanges w + S i)%nat by lia.
      apply Hfail. lia.
    + intros o. rewrite failed_attempt_exchanges.
      replace (S (exchanges w) + j)%nat with (exchanges w + S j)%nat by lia.
      apply Hfin.
    + rewrite H1, H2, H3, failed_attempt_exchanges, failed_attempt_slept,
        failed_attempt_options.
      replace (S (exchanges w) + j)%nat with (exchanges w + S j)%nat by lia.
      simpl backoff_log. rewrite <- app_assoc. auto.
Qed.

Lemma retry_loop_all_failed (e : env) (curl : CURL) (max : Z) (j : nat) :
  ∀ fuel res rc w,
    0 ≤ rc → rc + Z.of_nat j ≤ 21 → rc + Z.of_nat j + 1 = max → (j < fuel)%nat →
    (∀ i o, (i ≤ j)%nat → retryable (transport e (exchanges w + i) o) = true) →
    let r := retry_loop e curl max fuel res rc (1000 * 2 ^ rc) w in
    exchanges r.2 = S (exchanges w + j)
    ∧ slept r.2 = backoff_log rc j ++ slept w
    ∧ r.1 = Value (r_code (transport e (exchanges w + j) (options w !! curl))).
Proof.
  induction j as [|j IH]; intros fuel res rc w Hrc Hb Hmax Hfuel Hfail;
    (destruct fuel as [|fuel]; [lia|]); cbv zeta.
  - rewrite Nat.add_0_r in *.
    rewrite retry_step_last;
      [auto|lia|lia|rewrite <- (Nat.add_0_r (exchanges w)); apply Hfail; lia].
  - rewrite retry_step_failed;
      [|lia|lia|rewrite <- (Nat.add_0_r (exchanges w)); apply Hfail; lia].
    destruct (IH fuel
                (Value (r_code (transport e (exchanges w) (options w !! curl))))
                (rc + 1) (failed_attempt e curl (2 ^ rc) w))
      as (H1 & H2 & H3); try lia.
    + intros i o Hi. rewrite failed_attempt_exchanges.
      replace (S (exchanges w) + i)%nat with (exchanges w + S i)%nat by lia.
      apply Hfail. lia.
    + rewrite H1, H2, H3, failed_attempt_exchanges, failed_attempt_slept,
        failed_attempt_options.
      replace (S (exchanges w) + j)%nat with (exchanges w + S j)%nat by lia.
      simpl backoff_log. rewrite <- app_assoc. auto.
Qed.

(** X1. After [j] retryable replies (at most 21) and then a reply that is
    not retryable, the engine has made [j + 1] exchanges, has slept
    1, 2, 4, ... seconds between them, and returns the result of the
    last transfer; this needs [j < max_retries]. *)
Theorem retry_until_final_reply
    (e : env) (curl : CURL) (max : Z) (j : nat) (w : world) :
  Z.of_nat j < max → (j ≤ 21)%nat →
  (∀ i o, (i < j)%nat → retryable (transport e (exchanges w + i) o) = true) →
  (∀ o, retryable (transport e (exchanges w + j) o) = false) →
  let r := validation_retry_with_backoff e curl max w in
  exchanges r.2 = S (exchanges w + j)
  ∧ slept r.2 = backoff_log 0 j ++ slept w
  ∧ r.1 = Value (r_code (transport e (exchanges w + j) (options w !! curl))).
Proof.
  intros Hmax Hj Hfail Hfin. unfold validation_retry_with_backoff.
  apply (retry_loop_then_final e curl max j (Z.to_nat max) Indeterminate 0 w);
    auto; lia.
Qed.

Lemma retry_until_final_reply_witness :
  let r := validation_retry_with_backoff
             (scripted [unavailable; failure CURLE_COULDNT_CONNECT] not_found)
             0%nat 3 initial_world in
  exchanges r.2 = 3%nat ∧ slept r.2 = [2; 1] ∧ r.1 = Value CURLE_OK.
Proof.
  apply (retry_until_final_reply
           (scripted [unavailable; failure CURLE_COULDNT_CONNECT] not_found)
           0%nat 3 2 initial_world).
  - lia.
  - lia.
  - intros [|[|i]] o Hi; [reflexivity|reflexivity|lia].
  - intros o. reflexivity.
Defined.

(** X2. When every reply is retryable and [max_retries] is between 1 and
    22, the engine makes exactly [max_retries] exchanges, sleeps
    1, 2, 4, ... seconds between them ([max_retries - 1] sleeps, none
    after the last exchange) and returns the result of the last
    transfer. *)
Theorem retry_exhausted
    (e : env) (curl : CURL) (max : Z) (w : world) :
  1 ≤ max ≤ 22 →
  (∀ i o, retryable (transport e i o) = true) →
  let r := validation_retry_with_backoff e curl max w in
  exchanges r.2 = (exchanges w + Z.to_nat max)%nat
  ∧ slept r.2 = backoff_log 0 (Z.to_nat max - 1) ++ slept w
  ∧ r.1 = Value (r_code (transport e (exchanges w + (Z.to_nat max - 1))
                           (options w !! curl))).
Proof.
  intros Hmax Hfail. unfold validation_retry_with_backoff.
  destruct (retry_loop_all_failed e curl max (Z.to_nat max - 1) (Z.to_nat max)
              Indeterminate 0 w) as (H1 & H2 & H3); try lia; auto.
  change (1000 * 2 ^ 0) with 1000 in *.
  rewrite H1, H2, H3. repeat split. lia.
Qed.

Lemma retry_exhausted_witness :
  let r := validation_retry_with_backoff (stub (failure CURLE_OPERATION_TIMEDOUT))
             0%nat 4 initial_world in
  exchanges r.2 = 4%nat ∧ slept r.2 = [4; 2; 1]
  ∧ r.1 = Value CURLE_OPERATION_TIMEDOUT.
Proof.
  apply (retry_exhausted (stub (failure CURLE_OPERATION_TIMEDOUT)) 0%nat 4
           initial_world).
  - lia.
  - intros i o. reflexivity.
Defined.

Lemma retry_loop_bound (e : env) (curl : CURL) (max : Z) (fuel : nat) :
  ∀ res rc b w,
    (Z.to_nat (max - rc) ≤ fuel)%nat →
    let r := retry_loop e curl max fuel res rc b w in
    (rc < max → (exchanges w < exchanges r.2)%nat)
    ∧ (exchanges w ≤ exchanges r.2)%nat
    ∧ (exchanges r.2 ≤ exchanges w + Z.to_nat (max - rc))%nat
    ∧ ∃ new, slept r.2 = new ++ slept w
             ∧ (length new ≤ Nat.pred (exchanges r.2 - exchanges w))%nat.
Proof.
  induction fuel as [|fuel IH]; intros res rc b w Hfuel; cbv zeta.
  - simpl. repeat split; try lia. exists []. simpl. split; [reflexivity|lia].
  - cbn [retry_loop]. destruct (Z.ltb_spec rc max) as [Hlt|Hge].
    2:{ simpl. repeat split; try lia. exists []. simpl. split; [reflexivity|lia]. }
    unfold mbind, M_bind.
    pose proof (eq_refl : exchanges (curl_easy_perform e curl w).2 = S (exchanges w))
      as Hx1.
    pose proof (eq_refl : slept (curl_easy_perform e curl w).2 = slept w) as Hs1.
    destruct (curl_easy_perform e curl w) as [r1 w1]. cbn [snd] in Hx1, Hs1.
    assert (∀ v : cval,
              (rc < max → (exchanges w < exchanges (v, w1).2)%nat)
              ∧ (exchanges w ≤ exchanges (v, w1).2)%nat
              ∧ (exchanges (v, w1).2 ≤ exchanges w + Z.to_nat (max - rc))%nat
              ∧ ∃ new, slept (v, w1).2 = new ++ slept w
                       ∧ (length new ≤ Nat.pred (exchanges (v, w1).2 - exchanges w))%nat)
      as Hstop.
    { intros v. cbn [snd]. rewrite Hx1, Hs1. repeat split; try lia.
      exists []. simpl. split; [reflexivity|lia]. }
    assert (∀ v s b', rc + 1 < max →
              let r := retry_loop e curl max fuel v (rc + 1) b' (sleep s w1).2 in
              (rc < max → (exchanges w < exchanges r.2)%nat)
              ∧ (exchanges w ≤ exchanges r.2)%nat
              ∧ (exchanges r.2 ≤ exchanges w + Z.to_nat (max - rc))%nat
              ∧ ∃ new, slept r.2 = new ++ slept w
                       ∧ (length new ≤ Nat.pred (exchanges r.2 - exchanges w))%nat)
      as Hagain.
    { intros v s b' Hnext. cbv zeta.
      pose proof (eq_refl : slept (sleep s w1).2 = s :: slept w1) as Hs2.
      pose proof (eq_refl : exchanges (sleep s w1).2 = exchanges w1) as Hx2.
      destruct (IH v (rc + 1) b' (sleep s w1).2) as (H1 & H2 & H3 & new & H4 & H5);
        [lia|].
      specialize (H1 Hnext). rewrite Hx2, Hx1 in *. rewrite Hs2, Hs1 in H4.
      repeat split; try lia.
      exists (new ++ [s]). rewrite <- app_assoc. split; [exact H4|].
      rewrite length_app. cbn [length]. lia. }
    destruct (r1 =? CURLE_OK).
    + unfold curl_easy_getinfo. cbv beta iota.
      destruct (_ && _); [apply Hstop|].
      destruct (500 <=? _); [|apply Hstop].
      destruct (Z.ltb_spec (rc + 1) max) as [Hnext|Hlast]; [apply Hagain; lia|].
      destruct (IH (Value r1) (rc + 1) b w1)
        as (_ & H2 & H3 & new & H4 & H5); [lia|].
      rewrite Hx1 in *. rewrite Hs1 in H4.
      repeat split; try lia. exists new. split; [exact H4|lia].
    + destruct (_ || _); [|apply Hstop].
      destruct (Z.ltb_spec (rc + 1) max) as [Hnext|Hlast];
        [apply Hagain; lia|apply Hstop].
Qed.

(** X3. Whatever the transport answers, the engine makes at least one
    exchange when [max_retries] is positive and never more than
    [max_retries] of them, and every sleep is followed by a further
    exchange: there are fewer sleeps than exchanges. *)
Theorem retry_attempts_bounded (e : env) (curl : CURL) (max : Z) (w : world) :
  let r := validation_retry_with_backoff e curl max w in
  (0 < max → (exchanges w < exchanges r.2)%nat)
  ∧ (exchanges w ≤ exchanges r.2)%nat
  ∧ (exchanges r.2 ≤ exchanges w + Z.to_nat max)%nat
  ∧ ∃ new, slept r.2 = new ++ slept w
           ∧ (length new ≤ Nat.pred (exchanges r.2 - exchanges w))%nat.
Proof.
  unfold validation_retry_with_backoff.
  pose proof (retry_loop_bound e curl max (Z.to_nat max) Indeterminate 0 1000 w) as H.
  rewrite Z.sub_0_r in H. apply H. lia.
Qed.

(** ** The orchestrator: further paths *)

Lemma retry_first_final (e : env) (conn : CURL) (max : Z) (w : world) :
  0 < max →
  retryable (transport e (exchanges w) (options w !! conn)) = false →
  validation_retry_with_backoff e conn max w
  = (Value (r_code (transport e (exchanges w) (options w !! conn))),
     (curl_easy_perform e conn w).2).
Proof.
  intros Hmax Hf. unfold validation_retry_with_backoff.
  destruct (Z.to_nat max) as [|fuel] eqn:Ef; [lia|].
  apply retry_step_final; [lia|exact Hf].
Qed.

(** X8. With caching off a validation leaves the cache as it is and,
    given a handle and a positive [max_retries], always makes at least
    one exchange, whatever was validated before. *)
Theorem caching_disabled_goes_to_network
    (e : env) (c : CURL) (endpoint payload : string)
    (error : option validation_error_t) (w : world) :
  enable_caching (global_config w) = false →
  let r := curl_validation_enhanced e (Some c) (Some endpoint) (Some payload)
             error w in
  cache_head r.2 = cache_head w
  ∧ (is_Some (get_connection_from_pool e w).1 →
     0 < max_retries (global_config w) →
     (exchanges w < exchanges r.2)%nat).
Proof.
  intros Hoff. cbv zeta. split; [|intros [conn Hconn] Hmax].
  - revert w Hoff.
    assert (∀ l, hoare (λ w, enable_caching (global_config w) = false
                            ∧ cache_head w = l)
                   (curl_validation_enhanced e (Some c) (Some endpoint)
                      (Some payload) error)
                   (λ _ w, enable_caching (global_config w) = false
                           ∧ cache_head w = l)) as H.
    { intros l. apply validation_cache_invariant.
      - unfold cache_view. intros w w' [= -> ->]. auto.
      - intros k w [H1 H2]. rewrite lookup_disabled by assumption. auto.
      - intros k w [H1 H2]. rewrite store_disabled by assumption. auto. }
    intros w Hoff. apply (H (cache_head w) w). auto.
  - destruct (curl_validation_enhanced _ _ _ _ _ w) as [res w'] eqn:E.
    open_validation E. advance E.
    rewrite lookup_disabled in E by assumption. cbv beta iota in E.
    kept_in E traffic_view. cbn [fst] in Hconn. subst o.
    unfold traffic_view in Hkept. injection Hkept as Hg1 Hx1.
    advance E. advance E.
    kept_in E traffic_view. unfold traffic_view in Hkept. injection Hkept as Hg2 Hx2.
    advance E. advance E.
    pose proof (retry_loop_bound e conn (max_retries (global_config w0))
                  (Z.to_nat (max_retries (global_config w0))) Indeterminate 0 1000
                  w1 ltac:(lia)) as (Hmore & _).
    cbv zeta in Hmore.
    change (retry_loop e conn ?m (Z.to_nat ?m) Indeterminate 0 1000 w1)
      with (validation_retry_with_backoff e conn m w1) in Hmore.
    destruct (validation_retry_with_backoff e conn _ w1) as [rv w2].
    cbn [snd] in Hmore. cbv beta iota zeta in E.
    advance E.
    kept_in E traffic_view. unfold traffic_view in Hkept. injection Hkept as Hg3 Hx3.
    kept_in E traffic_view. unfold traffic_view in Hkept. injection Hkept as Hg4 Hx4.
    kept_in E traffic_view. unfold traffic_view in Hkept. injection Hkept as Hg5 Hx5.
    injection E as _ <-. cbn [snd].
    rewrite Hg1 in Hmore. specialize (Hmore Hmax). lia.
Qed.

Lemma caching_disabled_goes_to_network_witness :
  let r := curl_validation_enhanced account_stub (Some 100%nat)
             (Some account_endpoint) (Some account_json) None caching_off in
  cache_head r.2 = cache_head caching_off
  ∧ (exchanges caching_off < exchanges r.2)%nat.
Proof.
  destruct (caching_disabled_goes_to_network account_stub 100%nat
              account_endpoint account_json None caching_off eq_refl)
    as [Hcache Hmore].
  split; [exact Hcache|].
  apply Hmore; [exists 0%nat; reflexivity|vm_compute; reflexivity].
Defined.

Lemma set_validation_error_run (e : env) (error : option validation_error_t)
    (c : Z) (m : string) (d : option string) (w : world) :
  set_validation_error e error c m d w
  = ((λ err, {| code := c; message := Some m; details := d;
                timestamp := Some (strftime e (now w));
                request_id := request_id err |}) <$> error, w).
Proof. destruct error; reflexivity. Qed.

(** X9. When the first reply is neither retryable nor a 2xx success (a
    404, say, or a transport error other than a failed connect or a
    timeout), a validation that missed the cache makes that one exchange
    and does not sleep; it returns the result of the transfer, which is
    [CURLE_OK] for any HTTP status; it reports the HTTP status, or else
    the transfer's result, in the error structure; and the cache is left
    as the lookup left it. *)
Theorem validation_fails_without_retry
    (e : env) (c : CURL) (endpoint payload : string)
    (error : option validation_error_t) (w : world) (rep : reply) :
  (get_cached_response (cache_key_of endpoint payload) w).1 = None →
  is_Some (get_connection_from_pool e w).1 →
  0 < max_retries (global_config w) →
  (∀ o, transport e (exchanges w) o = rep) →
  retryable rep = false →
  (r_code rep =? CURLE_OK) && is_2xx (r_status rep) = false →
  let http := r_code rep =? CURLE_OK in
  let r := curl_validation_enhanced e (Some c) (Some endpoint) (Some payload)
             error w in
  r.1.1 = r_code rep
  ∧ r.1.2
    = (λ err,
        {| code := if http then wrap_int (r_status rep) else r_code rep;
           message :=
             Some (if http
                   then snprintf 256 ("HTTP " +:+ pretty (r_status rep))
                   else curl_easy_strerror e (r_code rep));
           details :=
             Some (if http then "API returned non-200 status"
                   else "CURL operation failed");
           timestamp := Some (strftime e (now w + r_secs rep));
           request_id := request_id err |}) <$> error
  ∧ exchanges r.2 = S (exchanges w)
  ∧ slept r.2 = slept w
  ∧ cache_head r.2
    = cache_head (get_cached_response (cache_key_of endpoint payload) w).2.
Proof.
  intros Hmiss [conn Hconn] Hmax Hrep Hfinal Hfail. cbv zeta.
  destruct (curl_validation_enhanced _ _ _ _ _ w) as [res w'] eqn:E.
  open_validation E.
  kept_in E (λ w, (global_config w, connection_pool w, created w, options w,
                   exchanges w, slept w, now w, response_code w)).
  cbn [fst snd] in *. subst o. injection Hkept as Hg0 Hp0 Hcr0 Ho0 Hx0 Hs0 Hn0 Hr0.
  assert ((get_connection_from_pool e w0).1 = Some conn) as Hconn0.
  { rewrite <- Hconn. unfold get_connection_from_pool, curl_easy_init.
    rewrite Hg0, Hp0, Hcr0. repeat case_match; reflexivity. }
  kept_in E (λ w, (global_config w, exchanges w, slept w, cache_head w, now w,
                   response_code w)).
  cbn [fst] in Hconn0. subst o. injection Hkept as Hg1 Hx1 Hs1 Hc1 Hn1 Hr1.
  advance E. advance E.
  kept_in E (λ w, (global_config w, exchanges w, slept w, cache_head w, now w,
                   response_code w)).
  injection Hkept as Hg2 Hx2 Hs2 Hc2 Hn2 Hr2.
  advance E. advance E.
  rewrite retry_first_final in E;
    [|congruence|rewrite Hx2, Hx1, Hx0, Hrep; exact Hfinal].
  cbv beta iota zeta in E.
  rewrite Hx2, Hx1, Hx0, Hrep in E.
  pose proof (getinfo_after_perform e conn w2) as Hinfo.
  unfold curl_easy_getinfo in Hinfo. cbn [fst] in Hinfo.
  rewrite Hx2, Hx1, Hx0, Hrep in Hinfo.
  assert (exchanges (curl_easy_perform e conn w2).2 = S (exchanges w)
          ∧ slept (curl_easy_perform e conn w2).2 = slept w
          ∧ cache_head (curl_easy_perform e conn w2).2 = cache_head w0
          ∧ now (curl_easy_perform e conn w2).2 = now w + r_secs rep)
    as (Hx3 & Hs3 & Hc3 & Hn3).
  { cbn [curl_easy_perform snd exchanges slept cache_head now].
    rewrite Hx2, Hx1, Hx0, Hrep. repeat split; congruence. }
  remember (curl_easy_perform e conn w2).2 as w3 eqn:Hw3. clear Hw3.
  advance E.
  kept_in E (λ w, (global_config w, exchanges w, slept w, cache_head w, now w,
                   response_code w)).
  injection Hkept as Hg4 Hx4 Hs4 Hc4 Hn4 Hr4.
  advance E.
  assert (∀ cd m d,
            (set_validation_error e error cd m d w4).1
            = (λ err, {| code := cd; message := Some m; details := d;
                         timestamp := Some (strftime e (now w + r_secs rep));
                         request_id := request_id err |}) <$> error
            ∧ (set_validation_error e error cd m d w4).2 = w4) as Hrun.
  { intros cd m d. rewrite set_validation_error_run, Hn4, Hn3. auto. }
  destruct (r_code rep =? CURLE_OK) eqn:Hok; cbv beta iota zeta in E.
  - simpl in Hfail. advance E. rewrite Hr4, Hinfo in E. cbn [default] in E.
    rewrite Hfail in E.
    match type of E with context [set_validation_error e error ?cd ?m ?d w4] =>
      destruct (Hrun cd m d) as [H1 H2];
      destruct (set_validation_error e error cd m d w4) as [err' w5] end.
    cbn [fst snd] in H1, H2. subst err' w5. cbv beta iota zeta in E.
    kept_in E (λ w, (exchanges w, slept w, cache_head w)).
    injection Hkept as Hx6 Hs6 Hc6.
    injection E as <- <-. cbn [fst snd].
    repeat split; congruence.
  - match type of E with context [set_validation_error e error ?cd ?m ?d w4] =>
      destruct (Hrun cd m d) as [H1 H2];
      destruct (set_validation_error e error cd m d w4) as [err' w5] end.
    cbn [fst snd] in H1, H2. subst err' w5. cbv beta iota zeta in E.
    kept_in E (λ w, (exchanges w, slept w, cache_head w)).
    injection Hkept as Hx6 Hs6 Hc6.
    injection E as <- <-. cbn [fst snd].
    repeat split; congruence.
Qed.

Lemma validation_fails_without_retry_witness :
  let r := curl_validation_enhanced (stub not_found) (Some 100%nat)
             (Some account_endpoint) (Some account_json) (Some blank_error)
             initial_world in
  r.1.1 = CURLE_OK ∧ code <$> r.1.2 = Some 404
  ∧ exchanges r.2 = 1%nat ∧ slept r.2 = [] ∧ cache_head r.2 = [].
Proof.
  destruct (validation_fails_without_retry (stub not_found) 100%nat
              account_endpoint account_json (Some blank_error) initial_world
              not_found) as (H1 & H2 & H3 & H4 & H5).
  - reflexivity.
  - exists 0%nat. reflexivity.
  - vm_compute. reflexivity.
  - intros o. reflexivity.
  - reflexivity.
  - reflexivity.
  - cbv zeta in *. rewrite H1, H2, H3, H4, H5. repeat split.
Defined.

(** X10. When the cache misses and no handle is to be had (the pool has
    nothing to give and [curl_easy_init] fails), a validation returns
    [CURLE_OUT_OF_MEMORY] with code 500 in the error structure and does
    nothing else: the state is the one the lookup left. *)
Theorem validation_without_handle
    (e : env) (c : CURL) (endpoint payload : string)
    (error : option validation_error_t) (w : world) :
  (get_cached_response (cache_key_of endpoint payload) w).1 = None →
  enable_connection_pooling (global_config w) = false
  ∨ pool_size (connection_pool w) = 0 →
  init_ok e (created w) = false →
  curl_validation_enhanced e (Some c) (Some endpoint) (Some payload) error w
  = ((CURLE_OUT_OF_MEMORY,
      (λ err, {| code := 500;
                 message := Some "Connection pool exhausted";
                 details := Some "Unable to get connection from pool";
                 timestamp := Some (strftime e (now w));
                 request_id := request_id err |}) <$> error),
     (get_cached_response (cache_key_of endpoint payload) w).2).
Proof.
  intros Hmiss Hpool Hinit. unfold curl_validation_enhanced.
  rewrite bind_run, Hmiss, lookup_world.
  set (l := cache_head _).
  rewrite bind_run, acquire_set_cache, acquire_fresh by assumption.
  unfold curl_easy_init. rewrite Hinit. cbn [fst snd].
  rewrite bind_run, set_validation_error_run. reflexivity.
Qed.

Lemma validation_without_handle_witness :
  curl_validation_enhanced (no_handles not_found) (Some 100%nat)
    (Some account_endpoint) (Some account_json) (Some blank_error) initial_world
  = ((CURLE_OUT_OF_MEMORY,
      Some {| code := 500;
              message := Some "Connection pool exhausted";
              details := Some "Unable to get connection from pool";
              timestamp := Some "2023-11-14 22:13:20";
              request_id := None |}),
     initial_world).
Proof.
  apply (validation_without_handle (no_handles not_found) 100%nat
           account_endpoint account_json (Some blank_error) initial_world).
  - reflexivity.
  - right. reflexivity.
  - reflexivity.
Defined.

(** X11. With pooling off, a validation that goes to the network creates
    one handle and cleans that handle up before it returns; the pool is
    not touched. *)
Theorem pooling_disabled_handle_cleaned
    (e : env) (c : CURL) (endpoint payload : string)
    (error : option validation_error_t) (w : world) :
  enable_connection_pooling (global_config w) = false →
  (get_cached_response (cache_key_of endpoint payload) w).1 = None →
  init_ok e (created w) = true →
  let r := curl_validation_enhanced e (Some c) (Some endpoint) (Some payload)
             error w in
  created r.2 = S (created w)
  ∧ cleaned r.2 = created w :: cleaned w
  ∧ connection_pool r.2 = connection_pool w.
Proof.
  intros Hoff Hmiss Hinit. cbv zeta.
  destruct (curl_validation_enhanced _ _ _ _ _ w) as [res w'] eqn:E.
  open_validation E.
  kept_in E (λ w, (global_config w, connection_pool w, created w, cleaned w)).
  cbn [fst] in Hmiss. subst o. injection Hkept as Hg0 Hp0 Hcr0 Hcl0.
  advance E. rewrite acquire_fresh in E by (left; congruence).
  unfold curl_easy_init in E. rewrite Hcr0, Hinit in E. cbv beta iota zeta in E.
  match type of E with (_ ≫= _) ?W = _ =>
    assert (global_config W = global_config w ∧ connection_pool W = connection_pool w
            ∧ created W = S (created w) ∧ cleaned W = cleaned w)
      as (Hg1 & Hp1 & Hcr1 & Hcl1) by (cbn; repeat split; congruence);
    remember W as w1 eqn:Hw1; clear Hw1 end.
  advance E. advance E.
  kept_in E (λ w, (global_config w, connection_pool w, created w, cleaned w)).
  injection Hkept as Hg2 Hp2 Hcr2 Hcl2.
  advance E.
  kept_in E (λ w, (global_config w, connection_pool w, created w, cleaned w)).
  injection Hkept as Hg3 Hp3 Hcr3 Hcl3.
  advance E.
  kept_in E (λ w, (global_config w, connection_pool w, created w, cleaned w)).
  injection Hkept as Hg4 Hp4 Hcr4 Hcl4.
  kept_in E (λ w, (global_config w, connection_pool w, created w, cleaned w)).
  injection Hkept as Hg5 Hp5 Hcr5 Hcl5.
  advance E.
  match type of E with context [return_connection_to_pool ?h ?W] =>
    replace (return_connection_to_pool h W) with (curl_easy_cleanup h W) in E
      by (unfold return_connection_to_pool;
          replace (enable_connection_pooling (global_config W)) with false
            by congruence;
          reflexivity)
  end.
  unfold curl_easy_cleanup in E. cbv beta iota zeta in E.
  injection E as _ <-. cbn. repeat split; congruence.
Qed.

Lemma pooling_disabled_handle_cleaned_witness :
  let r := curl_validation_enhanced account_stub (Some 100%nat)
             (Some account_endpoint) (Some account_json) None pooling_off in
  created r.2 = 1%nat ∧ cleaned r.2 = [0%nat]
  ∧ connection_pool r.2 = empty_pool 10.
Proof.
  apply (pooling_disabled_handle_cleaned account_stub 100%nat account_endpoint
           account_json None pooling_off); reflexivity.
Defined.

(** The metrics buffer after a validation that goes to the network. *)
Lemma request_metrics
    (e : env) (c : CURL) (endpoint payload : string)
    (error : option validation_error_t) (w : world) :
  (get_cached_response (cache_key_of endpoint payload) w).1 = None →
  is_Some (get_connection_from_pool e w).1 →
  let r := curl_validation_enhanced e (Some c) (Some endpoint) (Some payload)
             error w in
  metrics_buffer r.2
  = if enable_metrics (global_config w)
       && (Z.of_nat (length (metrics_buffer w)) <? MAX_METRICS)
    then metrics_buffer w
         ++ [{| request_time := now r.2 - now w; retry_count := 0;
                response_size := 0; metric_timestamp := 0 |}]
    else metrics_buffer w.
Proof.
  intros Hmiss [conn Hconn]. cbv zeta.
  destruct (curl_validation_enhanced _ _ _ _ _ w) as [res w'] eqn:E.
  open_validation E.
  kept_in E (λ w, (global_config w, connection_pool w, created w,
                   metrics_buffer w, now w)).
  cbn [fst snd] in *. subst o. injection Hkept as Hg0 Hp0 Hcr0 Hm0 Hn0.
  assert ((get_connection_from_pool e w0).1 = Some conn) as Hconn0.
  { rewrite <- Hconn. unfold get_connection_from_pool, curl_easy_init.
    rewrite Hg0, Hp0, Hcr0. repeat case_match; reflexivity. }
  kept_in E (λ w, (global_config w, metrics_buffer w, now w)).
  cbn [fst] in Hconn0. subst o. injection Hkept as Hg1 Hm1 Hn1.
  advance E. advance E.
  kept_in E (λ w, (global_config w, metrics_buffer w, now w)).
  injection Hkept as Hg2 Hm2 Hn2.
  advance E.
  kept_in E (λ w, (global_config w, metrics_buffer w)).
  injection Hkept as Hg3 Hm3.
  advance E. advance E.
  unfold record_metrics in E.
  match type of E with context [enable_metrics (global_config ?W)] =>
    replace (enable_metrics (global_config W))
      with (enable_metrics (global_config w)) in E by congruence;
    replace (Z.of_nat (length (metrics_buffer W)) <? MAX_METRICS)
      with (Z.of_nat (length (metrics_buffer w)) <? MAX_METRICS) in E
      by congruence
  end.
  destruct (enable_metrics (global_config w));
    [destruct (Z.of_nat (length (metrics_buffer w)) <? MAX_METRICS)|];
    cbn [negb andb] in E |- *; cbv beta iota zeta in E;
    (kept_in E (λ w, (metrics_buffer w, now w)); injection Hkept as Hm5 Hn5;
     kept_in E (λ w, (metrics_buffer w, now w)); injection Hkept as Hm6 Hn6;
     injection E as _ <-; cbn [snd];
     rewrite Hm6, Hm5, ?Hn6, ?Hn5; cbn; congruence).
Qed.

(** X12. With metrics on and room in the buffer, a validation that goes
    to the network appends exactly one metric; its [request_time] is the
    time that passed on the clock during the call, its other fields are
    0. *)
Theorem one_metric_per_request
    (e : env) (c : CURL) (endpoint payload : string)
    (error : option validation_error_t) (w : world) :
  enable_metrics (global_config w) = true →
  Z.of_nat (length (metrics_buffer w)) < MAX_METRICS →
  (get_cached_response (cache_key_of endpoint payload) w).1 = None →
  is_Some (get_connection_from_pool e w).1 →
  let r := curl_validation_enhanced e (Some c) (Some endpoint) (Some payload)
             error w in
  metrics_buffer r.2
  = metrics_buffer w ++ [{| request_time := now r.2 - now w; retry_count := 0;
                            response_size := 0; metric_timestamp := 0 |}].
Proof.
  intros Hon Hroom Hmiss Hconn. cbv zeta.
  pose proof (request_metrics e c endpoint payload error w Hmiss Hconn) as H.
  cbv zeta in H. rewrite H, Hon.
  replace (_ <? _) with true by (symmetry; apply Z.ltb_lt; exact Hroom).
  reflexivity.
Qed.

Lemma one_metric_per_request_witness :
  let r := curl_validation_enhanced (stub unavailable) (Some 100%nat)
             (Some account_endpoint) (Some account_json) None initial_world in
  metrics_buffer r.2
  = [{| request_time := now r.2 - now initial_world; retry_count := 0;
        response_size := 0; metric_timestamp := 0 |}].
Proof.
  apply (one_metric_per_request (stub unavailable) 100%nat account_endpoint
           account_json None initial_world).
  - reflexivity.
  - vm_compute. reflexivity.
  - reflexivity.
  - exists 0%nat. reflexivity.
Defined.

(** An invariant of configuration and metrics buffer that
    [record_metrics] keeps is kept by [curl_validation_enhanced]. *)
Lemma validation_metrics_invariant (P : world → Prop)
    (e : env) (curl : option CURL) (endpoint payload : option string)
    (error : option validation_error_t) :
  (∀ w w', metrics_view w = metrics_view w' → P w → P w') →
  (∀ x, hoare P (record_metrics x) (λ _, P)) →
  hoare P (curl_validation_enhanced e curl endpoint payload error) (λ _, P).
Proof.
  intros Hview Hrecord.
  assert (∀ A (m : M A), keeps metrics_view m → hoare P m (λ _, P)) as Hk.
  { intros A m Hm. eapply hoare_keeps; [exact Hm|exact Hview]. }
  unfold curl_validation_enhanced.
  destruct curl as [c|]; [destruct endpoint as [ep|]; [destruct payload as [pl|]|]|];
    try solve [apply Hk; keeps_auto].
  eapply hoare_bind; [apply Hk; keeps_auto|].
  intros [cached|]; [apply hoare_ret|].
  eapply hoare_bind; [apply Hk; keeps_auto|].
  intros [connection|]; [|apply Hk; keeps_auto].
  do 5 (eapply hoare_bind; [apply Hk; keeps_auto|]; intros ?).
  cbv zeta.
  eapply hoare_bind; [apply Hk; keeps_auto|]. intros ?.
  eapply hoare_bind; [apply Hrecord|]. intros ?.
  apply Hk; keeps_auto.
Qed.

(** X13. The metrics buffer never grows beyond 1000 metrics: a buffer of
    at most 1000 has at most 1000 after any validation, and a full
    buffer, or any buffer while metrics are off, is left exactly as it
    was. *)
Theorem metrics_buffer_bounded
    (e : env) (curl : option CURL) (endpoint payload : option string)
    (error : option validation_error_t) (w : world) :
  Z.of_nat (length (metrics_buffer w)) ≤ MAX_METRICS →
  let w' := (curl_validation_enhanced e curl endpoint payload error w).2 in
  Z.of_nat (length (metrics_buffer w')) ≤ MAX_METRICS
  ∧ (Z.of_nat (length (metrics_buffer w)) = MAX_METRICS
     ∨ enable_metrics (global_config w) = false →
     metrics_buffer w' = metrics_buffer w).
Proof.
  intros Hle. cbv zeta. split.
  - revert w Hle.
    apply (validation_metrics_invariant
             (λ w, Z.of_nat (length (metrics_buffer w)) ≤ MAX_METRICS)).
    + unfold metrics_view. intros w w' [= _ ->]. auto.
    + intros x w H. unfold record_metrics.
      destruct (negb _); [exact H|].
      destruct (Z.ltb_spec (Z.of_nat (length (metrics_buffer w))) MAX_METRICS);
        [|exact H].
      simpl. rewrite length_app. simpl. lia.
  - intros Hfull.
    assert (∀ mb, hoare
              (λ w, (Z.of_nat (length (metrics_buffer w)) = MAX_METRICS
                     ∨ enable_metrics (global_config w) = false)
                    ∧ metrics_buffer w = mb)
              (curl_validation_enhanced e curl endpoint payload error)
              (λ _ w, (Z.of_nat (length (metrics_buffer w)) = MAX_METRICS
                       ∨ enable_metrics (global_config w) = false)
                      ∧ metrics_buffer w = mb)) as H.
    { intros mb. apply validation_metrics_invariant.
      - unfold metrics_view. intros w1 w2 [= -> ->]. auto.
      - intros x w1 [H1 H2]. unfold record_metrics.
        destruct (negb (enable_metrics (global_config w1))) eqn:Hen;
          [split; assumption|].
        destruct (Z.ltb_spec (Z.of_nat (length (metrics_buffer w1))) MAX_METRICS);
          [|split; assumption].
        destruct H1 as [H1|H1]; [lia|].
        rewrite H1 in Hen. discriminate. }
    apply (H (metrics_buffer w) w). auto.
Qed.

Lemma metrics_buffer_bounded_witness :
  Z.of_nat (length (metrics_buffer
                      (curl_validation_enhanced account_stub (Some 100%nat)
                         (Some account_endpoint) (Some account_json) None
                         initial_world).2)) ≤ MAX_METRICS.
Proof.
  apply (metrics_buffer_bounded account_stub (Some 100%nat)
           (Some account_endpoint) (Some account_json) None initial_world).
  vm_compute. discriminate.
Defined.

(** ** The cache: size, eviction, expiry *)

Lemma count_entries_min (limit : nat) :
  ∀ l, count_entries limit l = Z.of_nat (Nat.min limit (length l)).
Proof.
  induction limit as [|limit IH]; intros [|c l]; try reflexivity.
  cbn [count_entries length Nat.min]. rewrite IH. lia.
Qed.

Lemma remove_last_entry_length (l : list cache_entry_t) :
  (2 ≤ length l)%nat → length (remove_last_entry l) = Nat.pred (length l).
Proof.
  intros H. destruct l as [|a [|b l]]; simpl in H; try lia.
  unfold remove_last_entry. rewrite removelast_firstn_len, length_take. lia.
Qed.

Lemma remove_last_entry_last (l : list cache_entry_t) (x : cache_entry_t) :
  l ≠ [] → remove_last_entry (l ++ [x]) = l.
Proof.
  intros H. destruct l as [|a l]; [congruence|].
  unfold remove_last_entry.
  destruct l as [|b l]; [reflexivity|].
  change ((a :: b :: l) ++ [x]) with (a :: b :: (l ++ [x])).
  change (a :: b :: (l ++ [x])) with ((a :: b :: l) ++ [x]).
  apply removelast_last.
Qed.

Lemma cache_search_elements (k : string) (t : Z) (l : list cache_entry_t) :
  (length (cache_search k t [] l).2 ≤ length l)%nat
  ∧ ∀ x, x ∈ (cache_search k t [] l).2 → x ∈ l.
Proof.
  destruct (first_entry_split k l) as [Habs|(pre & c & post & -> & Hc & Hpre)].
  - rewrite cache_search_absent by assumption. simpl. auto.
  - rewrite (cache_search_found k t c post Hc pre [] Hpre). simpl.
    destruct (t <? expiry c); simpl; rewrite ?length_app; simpl; split; try lia;
      intros x; rewrite ?elem_of_cons, !elem_of_app, ?elem_of_cons; tauto.
Qed.

Lemma lookup_elements (k : string) (w : world) :
  (length (cache_head (get_cached_response k w).2) ≤ length (cache_head w))%nat
  ∧ ∀ x, x ∈ cache_head (get_cached_response k w).2 → x ∈ cache_head w.
Proof.
  unfold get_cached_response. destruct (negb _); [simpl; auto|].
  pose proof (cache_search_elements k (now w) (cache_head w)) as H.
  destruct (cache_search _ _ _ _). exact H.
Qed.

Lemma store_length (k v : string) (w : world) :
  (length (cache_head w) ≤ 100)%nat →
  (length (cache_head (cache_response k v w).2) ≤ 100)%nat.
Proof.
  intros H. unfold cache_response. destruct (negb _); [exact H|].
  cbn [snd cache_head set_cache length]. rewrite count_entries_min.
  destruct (Z.leb_spec 100 (Z.of_nat (Nat.min 100 (length (cache_head w)))));
    [|lia].
  rewrite remove_last_entry_length; lia.
Qed.

(** X4. A cache of at most 100 entries has at most 100 entries after a
    lookup, after a store, and after a whole validation. *)
Theorem cache_never_exceeds_100
    (e : env) (curl : option CURL) (endpoint payload : option string)
    (error : option validation_error_t) (k v : string) (w : world) :
  (length (cache_head w) ≤ 100)%nat →
  (length (cache_head (get_cached_response k w).2) ≤ 100)%nat
  ∧ (length (cache_head (cache_response k v w).2) ≤ 100)%nat
  ∧ (length (cache_head
               (curl_validation_enhanced e curl endpoint payload error w).2)
     ≤ 100)%nat.
Proof.
  intros H. split; [|split].
  - pose proof (lookup_elements k w). lia.
  - apply store_length, H.
  - revert w H.
    apply (validation_cache_invariant (λ w, (length (cache_head w) ≤ 100)%nat)).
    + unfold cache_view. intros w w' [= -> _]. auto.
    + intros k' w H. pose proof (lookup_elements k' w). simpl. lia.
    + intros k' w H. apply store_length, H.
Qed.

Lemma cache_never_exceeds_100_witness :
  (length (cache_head (get_cached_response "k" full_cache).2) ≤ 100)%nat
  ∧ (length (cache_head (cache_response "k" "v" full_cache).2) ≤ 100)%nat
  ∧ (length (cache_head
               (curl_validation_enhanced account_stub (Some 100%nat)
                  (Some account_endpoint) (Some account_json) None
                  full_cache).2) ≤ 100)%nat.
Proof.
  apply (cache_never_exceeds_100 account_stub (Some 100%nat)
           (Some account_endpoint) (Some account_json) None "k" "v" full_cache).
  vm_compute. lia.
Defined.

(** X5. What a store does to the list, caching being on: below 100
    entries the new entry is put in front and nothing is dropped; from
    100 entries on, the last entry of the list (the least recently
    stored or hit) is dropped and all the others stay, in their order,
    behind the new one. *)
Theorem store_evicts_only_the_last (k v : string) (w : world) :
  enable_caching (global_config w) = true →
  let new := {| key := k; response := v; expiry := now w + CACHE_TTL |} in
  ((length (cache_head w) < 100)%nat →
   cache_head (cache_response k v w).2 = new :: cache_head w)
  ∧ (∀ l x, cache_head w = l ++ [x] → (99 ≤ length l)%nat →
            cache_head (cache_response k v w).2 = new :: l).
Proof.
  intros Hen. cbv zeta. rewrite (store_prepends k v w Hen), count_entries_min.
  split.
  - intros H. destruct (Z.leb_spec 100 (Z.of_nat (Nat.min 100 (length (cache_head w)))));
      [lia|reflexivity].
  - intros l x -> H. rewrite length_app. cbn [length].
    destruct (Z.leb_spec 100 (Z.of_nat (Nat.min 100 (length l + 1)))); [|lia].
    rewrite remove_last_entry_last; [reflexivity|].
    destruct l; [simpl in H; lia|discriminate].
Qed.

Lemma store_evicts_only_the_last_witness :
  cache_head (cache_response "k" "v" full_cache).2
  = {| key := "k"; response := "v"; expiry := now full_cache + CACHE_TTL |}
    :: replicate 99 entry_a.
Proof.
  apply (store_evicts_only_the_last "k" "v" full_cache eq_refl) with (x := entry_b).
  - reflexivity.
  - vm_compute. lia.
Defined.

(** X6. An entry lives for exactly 300 seconds: stored at time [t], it
    is returned by a lookup at any time before [t + 300], and a lookup at
    [t + 300] or later returns NULL and unlinks it. *)
Theorem entry_expires_after_ttl (k v : string) (w : world) (d : Z) :
  enable_caching (global_config w) = true →
  let w1 := (cache_response k v w).2 in
  (d < CACHE_TTL → (get_cached_response k (tick d w1)).1 = Some v)
  ∧ (CACHE_TTL ≤ d →
     (get_cached_response k (tick d w1)).1 = None
     ∧ cache_head (get_cached_response k (tick d w1)).2 = tail (cache_head w1)).
Proof.
  intros Hen. cbv zeta.
  pose proof (store_prepends k v w Hen) as Hc.
  set (w1 := (cache_response k v w).2) in *.
  assert (enable_caching (global_config (tick d w1)) = true) as Hen1.
  { unfold w1, cache_response. rewrite Hen. exact Hen. }
  match type of Hc with _ = ?c :: ?post =>
    destruct (lookup_at_split (tick d w1) k [] c post Hen1) as [Hhit Hexp];
      [exact Hc|reflexivity|constructor|] end.
  change (now (tick d w1)) with (now w1 + d) in *.
  assert (now w1 = now w) as Hnow
    by (unfold w1, cache_response; rewrite Hen; reflexivity).
  cbn [expiry response] in *. split; intros Hd.
  - rewrite Hhit by lia. reflexivity.
  - rewrite Hexp by lia. rewrite Hc. auto.
Qed.

Lemma entry_expires_after_ttl_witness :
  (get_cached_response "k" (tick 300 (cache_response "k" "v" initial_world).2)).1
  = None.
Proof.
  apply (entry_expires_after_ttl "k" "v" initial_world 300 eq_refl).
  unfold CACHE_TTL. lia.
Defined.

Lemma cache_search_value (k : string) (t : Z) (l : list cache_entry_t) :
  ∀ prev, (cache_search k t prev l).1
          = match first_entry k l with
            | Some c => if t <? expiry c then Some (response c) else None
            | None => None
            end.
Proof.
  induction l as [|c l IH]; intros prev; [reflexivity|].
  cbn [cache_search first_entry]. destruct (String.eqb (key c) k); [|apply IH].
  destruct (t <? expiry c); reflexivity.
Qed.

Lemma first_entry_skip (k : string) (c : cache_entry_t) (post : list cache_entry_t) :
  key c ≠ k →
  ∀ pre, first_entry k (pre ++ c :: post) = first_entry k (pre ++ post).
Proof.
  intros Hc. induction pre as [|p pre IH]; simpl.
  - destruct (String.eqb_spec (key c) k); [contradiction|reflexivity].
  - rewrite IH. reflexivity.
Qed.

Lemma first_entry_after_search (k k' : string) (t : Z) (l : list cache_entry_t) :
  k ≠ k' → first_entry k (cache_search k' t [] l).2 = first_entry k l.
Proof.
  intros Hne.
  destruct (first_entry_split k' l) as [Habs|(pre & c & post & -> & Hc & Hpre)].
  - rewrite cache_search_absent by assumption. reflexivity.
  - rewrite (cache_search_found k' t c post Hc pre [] Hpre). simpl.
    rewrite (first_entry_skip k c post) by congruence.
    destruct (t <? expiry c); simpl; [|reflexivity].
    destruct (String.eqb_spec (key c) k); [congruence|reflexivity].
Qed.

(** X7. Looking one key up does not change what a lookup of another key
    returns: the promotion or removal of an entry leaves the first entry
    of every other key the first of its key. *)
Theorem lookups_of_other_keys_independent (k k' : string) (w : world) :
  k ≠ k' →
  (get_cached_response k (get_cached_response k' w).2).1
  = (get_cached_response k w).1.
Proof.
  intros Hne. unfold get_cached_response at 2.
  destruct (enable_caching (global_config w)) eqn:Hen; simpl;
    [|unfold get_cached_response; rewrite Hen; reflexivity].
  pose proof (first_entry_after_search k k' (now w) (cache_head w) Hne) as Hf.
  destruct (cache_search k' (now w) [] (cache_head w)) as [r l]. simpl in *.
  unfold get_cached_response. simpl. rewrite Hen. simpl.
  pose proof (cache_search_value k (now w) l []) as H1.
  pose proof (cache_search_value k (now w) (cache_head w) []) as H2.
  destruct (cache_search k (now w) [] l), (cache_search k (now w) [] (cache_head w)).
  simpl in *. rewrite H1, H2, Hf. reflexivity.
Qed.

Lemma lookups_of_other_keys_independent_witness :
  (get_cached_response "k" (get_cached_response "b" three_entries).2).1
  = (get_cached_response "k" three_entries).1.
Proof.
  apply (lookups_of_other_keys_independent "k" "b" three_entries).
  discriminate.
Defined.

(** ** The pool across validations *)

Lemma acquire_keeps_pool_wf (e : env) (w : world) :
  pool_wf (connection_pool w) →
  pool_wf (connection_pool (get_connection_from_pool e w).2).
Proof.
  intros Hwf. unfold get_connection_from_pool.
  destruct (negb _ || _) eqn:Hc.
  - unfold curl_easy_init. destruct (init_ok _ _); exact Hwf.
  - apply orb_false_iff in Hc as [_ Hsize]. apply Z.eqb_neq in Hsize.
    destruct Hwf as (n & [Hp|(hs & i & Hne & Hlen & Hi & Hp)]).
    + rewrite Hp in Hsize. simpl in Hsize. congruence.
    + exists n. right.
      exists hs, (Z.rem (i + 1) (Z.of_nat (length hs))).
      repeat split; try assumption.
      * apply Z.rem_bound_pos; lia.
      * apply Z.rem_bound_pos; lia.
      * simpl. rewrite Hp. reflexivity.
Qed.

Lemma release_keeps_pool_wf (h : CURL) (w : world) :
  pool_wf (connection_pool w) →
  pool_wf (connection_pool (return_connection_to_pool (Some h) w).2).
Proof.
  intros Hwf.
  destruct (enable_connection_pooling (global_config w)) eqn:Hen.
  2:{ unfold return_connection_to_pool. rewrite Hen. exact Hwf. }
  destruct Hwf as (n & [Hp|(hs & i & Hne & Hlen & Hi & Hp)]).
  - destruct n as [|n].
    + unfold return_connection_to_pool. rewrite Hen, Hp. simpl.
      rewrite Hp. exists 0%nat. left. reflexivity.
    + rewrite (release_into_empty (S n)) by (auto; lia). simpl.
      exists (S n). right. exists [h], 0. simpl. repeat split; auto; lia.
  - destruct (decide (length hs < n)%nat) as [Hroom|Hfull].
    + rewrite (release_with_room n hs i) by assumption. simpl.
      exists n. right. exists (hs ++ [h]), i.
      rewrite length_app. simpl. repeat split; try lia.
      destruct hs; discriminate.
    + rewrite (release_when_full n hs i) by (auto; lia). simpl.
      exists n. right. exists hs, i. auto.
Qed.

Lemma validation_pool_invariant (P : world → Prop)
    (e : env) (curl : option CURL) (endpoint payload : option string)
    (error : option validation_error_t) :
  (∀ w w', pool_view w = pool_view w' → P w → P w') →
  hoare P (get_connection_from_pool e) (λ _, P) →
  (∀ h, hoare P (return_connection_to_pool (Some h)) (λ _, P)) →
  hoare P (curl_validation_enhanced e curl endpoint payload error) (λ _, P).
Proof.
  intros Hview Hacquire Hrelease.
  assert (∀ A (m : M A), keeps pool_view m → hoare P m (λ _, P)) as Hk.
  { intros A m Hm. eapply hoare_keeps; [exact Hm|exact Hview]. }
  unfold curl_validation_enhanced.
  destruct curl as [c|]; [destruct endpoint as [ep|]; [destruct payload as [pl|]|]|];
    try solve [apply Hk; keeps_auto].
  eapply hoare_bind; [apply Hk; keeps_auto|].
  intros [cached|]; [apply hoare_ret|].
  eapply hoare_bind; [apply Hacquire|].
  intros [connection|]; [|apply Hk; keeps_auto].
  do 5 (eapply hoare_bind; [apply Hk; keeps_auto|]; intros ?).
  cbv zeta.
  do 3 (eapply hoare_bind; [apply Hk; keeps_auto|]; intros ?).
  eapply hoare_bind; [apply Hrelease|]. intros ?. apply hoare_ret.
Qed.

(** X14. A pool that was only ever used through the two pool functions
    stays well formed through every validation: the slots in use never
    outnumber [max_connections], each of them holds a handle, and
    [current_index] points at one of them.  From such a pool, with
    pooling on and a slot in use, taking a handle never fails and never
    calls [curl_easy_init]: it yields one of the idle handles. *)
Theorem pool_stays_well_formed
    (e : env) (curl : option CURL) (endpoint payload : option string)
    (error : option validation_error_t) (w : world) :
  pool_wf (connection_pool w) →
  let w' := (curl_validation_enhanced e curl endpoint payload error w).2 in
  pool_wf (connection_pool w')
  ∧ 0 ≤ pool_size (connection_pool w') ≤ max_connections (connection_pool w')
  ∧ (enable_connection_pooling (global_config w) = true →
     pool_size (connection_pool w) ≠ 0 →
     ∃ h, (get_connection_from_pool e w).1 = Some h
          ∧ h ∈ idle_handles (connection_pool w)
          ∧ created (get_connection_from_pool e w).2 = created w).
Proof.
  intros Hwf. cbv zeta.
  assert (pool_wf (connection_pool
            (curl_validation_enhanced e curl endpoint payload error w).2)) as Hwf'.
  { revert w Hwf.
    apply (validation_pool_invariant (λ w, pool_wf (connection_pool w))).
    - unfold pool_view. intros w w' [= _ ->]. auto.
    - intros w H. apply acquire_keeps_pool_wf, H.
    - intros h w H. apply release_keeps_pool_wf, H. }
  split; [exact Hwf'|split].
  - destruct Hwf' as (n & [->|(hs & i & _ & Hlen & _ & ->)]); simpl; lia.
  - intros Hen Hsize.
    destruct Hwf as (n & [Hp|(hs & i & Hne & Hlen & Hi & Hp)]).
    + rewrite Hp in Hsize. simpl in Hsize. congruence.
    + rewrite (acquire_from_idle e n hs i w Hen Hp Hne). simpl.
      destruct (lookup_lt_is_Some_2 hs (Z.to_nat i)) as [h Hh]; [lia|].
      exists h. rewrite Hp, idle_handles_pool_holds.
      repeat split; [exact Hh|].
      eapply list_elem_of_lookup_2. exact Hh.
Qed.

Lemma pool_stays_well_formed_witness :
  pool_wf (connection_pool
             (curl_validation_enhanced account_stub (Some 100%nat)
                (Some account_endpoint) (Some account_json) None
                initial_world).2).
Proof.
  apply (pool_stays_well_formed account_stub (Some 100%nat)
           (Some account_endpoint) (Some account_json) None initial_world).
  exists 10%nat. left. reflexivity.
Defined.

Lemma validation_keeps_config
    (e : env) (curl : option CURL) (endpoint payload : option string)
    (error : option validation_error_t) :
  keeps global_config (curl_validation_enhanced e curl endpoint payload error).
Proof. unfold curl_validation_enhanced. keeps_auto. Qed.

(** ** What reaches the cache *)

(** X15. A validation adds nothing to the cache but entries whose
    response is the string "success", and adds nothing at all when it
    returns a result other than [CURLE_OK]: the cache is then as the
    lookup left it. *)
Theorem failures_are_not_cached
    (e : env) (c : CURL) (endpoint payload : string)
    (error : option validation_error_t) (w : world) :
  let r := curl_validation_enhanced e (Some c) (Some endpoint) (Some payload)
             error w in
  (∀ x, x ∈ cache_head r.2 → x ∈ cache_head w ∨ response x = "success")
  ∧ (r.1.1 ≠ CURLE_OK →
     cache_head r.2
     = cache_head (get_cached_response (cache_key_of endpoint payload) w).2).
Proof.
  cbv zeta. split.
  - assert (∀ l : list cache_entry_t, hoare
              (λ w, ∀ x, x ∈ cache_head w → x ∈ l ∨ response x = "success")
              (curl_validation_enhanced e (Some c) (Some endpoint) (Some payload)
                 error)
              (λ _ w, ∀ x, x ∈ cache_head w → x ∈ l ∨ response x = "success"))
      as H.
    { intros l. apply validation_cache_invariant.
      - unfold cache_view. intros w1 w2 [= -> _]. auto.
      - intros k w1 H x Hx. apply H. apply (lookup_elements k w1). exact Hx.
      - intros k w1 H x Hx. unfold cache_response in Hx.
        destruct (negb _); [apply H, Hx|]. simpl in Hx.
        apply elem_of_cons in Hx as [->|Hx]; [right; reflexivity|].
        apply H. destruct (100 <=? _); [|exact Hx].
        eapply elem_of_sublist; [exact Hx|apply remove_last_entry_sublist]. }
    apply (H (cache_head w) w). auto.
  - intros Hres.
    destruct (curl_validation_enhanced _ _ _ _ _ w) as [res w'] eqn:E.
    open_validation E. advance E.
    destruct (get_cached_response (cache_key_of endpoint payload) w) as [cached w0].
    cbv beta iota zeta in E. cbn [fst snd] in *.
    destruct cached as [v|]; [injection E as <- <-; reflexivity|].
    kept_in E cache_view. unfold cache_view in Hkept. injection Hkept as Hc1 Hg1.
    destruct o as [conn|].
    + advance E. advance E.
      kept_in E cache_view. unfold cache_view in Hkept. injection Hkept as Hc2 Hg2.
      advance E.
      kept_in E cache_view. unfold cache_view in Hkept. injection Hkept as Hc3 Hg3.
      advance E.
      kept_in E cache_view. unfold cache_view in Hkept. injection Hkept as Hc4 Hg4.
      advance E.
      match type of E with context [?x =? CURLE_OK] =>
        destruct (Z.eqb_spec x CURLE_OK) as [Hok|Hno] end.
      * match type of E with context [let '(_, _) := ?m ?W in _] =>
          destruct (m W) as [err' w5] end.
        cbv beta iota zeta in E. advance E.
        match type of E with context [let '(_, _) := ?m ?W in _] =>
          destruct (m W) as [u' w6] end.
        injection E as <- <-. cbn [fst snd] in Hres. congruence.
      * kept_here E cache_view. unfold cache_view in Hkept. injection Hkept as Hc5 Hg5.
        kept_in E cache_view. unfold cache_view in Hkept. injection Hkept as Hc6 Hg6.
        injection E as _ <-. cbn [snd]. congruence.
    + kept_in E cache_view. unfold cache_view in Hkept. injection Hkept as Hc2 Hg2.
      injection E as _ <-. cbn [snd]. congruence.
Qed.

(** ** Teardown and the metrics snapshot *)

Lemma keeps_cleanup_slots {X} (f : world → X)
    (arr : option (list (option CURL))) (n : nat) :
  (∀ h, keeps f (curl_easy_cleanup h)) →
  ∀ i, keeps f (cleanup_slots arr i n).
Proof.
  intros Hf. induction n as [|n IH]; intros i; cbn [cleanup_slots].
  - apply keeps_ret.
  - apply keeps_bind; [apply Hf|intros _; apply IH].
Qed.

(** The base URL is the same pointer after a call as before it when it
    is a literal and the behaviour of the call is defined. *)
Lemma do_call_keeps_base_url (c : call) (w w' : world) (s : string) :
  base_url (global_config w) = literal s →
  do_call c w = Some w' →
  base_url (global_config w') = literal s.
Proof.
  intros Hs Hc. destruct c as [e curl endpoint payload error|config|ok count|d];
    cbn [do_call] in Hc.
  - injection Hc as <-.
    rewrite (validation_keeps_config e curl endpoint payload error w).
    exact Hs.
  - unfold validation_set_config in Hc. rewrite !replace_string_spec, Hs in Hc.
    destruct (str (base_url config)); [discriminate Hc|].
    cbn [mbind option_bind] in Hc.
    repeat match type of Hc with
           | context [match ?x with _ => _ end] => destruct x; try discriminate Hc
           end;
      injection Hc as <-; reflexivity.
  - injection Hc as <-. unfold validation_get_metrics.
    repeat case_match; exact Hs.
  - injection Hc as <-. exact Hs.
Qed.

Lemma cleanup_of_literal (w : world) (s : string) :
  base_url (global_config w) = literal s → validation_cleanup w = None.
Proof.
  intros Hs. unfold validation_cleanup.
  match goal with |- context [let '(_, _) := ?m w in _] =>
    assert (keeps global_config m) as Hk;
    [|specialize (Hk w); destruct (m w) as [u w1]] end.
  { unfold put_cache, get_pool, put_pool, put_metrics.
    apply keeps_bind; [intros ?; reflexivity|intros _].
    apply keeps_bind; [intros ?; reflexivity|intros p].
    apply keeps_bind;
      [apply keeps_cleanup_slots; intros [h|] ?; reflexivity|intros _].
    apply keeps_bind; [intros ?; reflexivity|intros _].
    intros ?; reflexivity. }
  cbn [snd] in Hk. cbv zeta. rewrite Hk, Hs. reflexivity.
Qed.

(** X16. [validation_cleanup] ends with [free(global_config.base_url)].
    The base URL is a string literal when the program starts, and it is
    that literal still after any sequence of validations, snapshots of
    the metrics and changes of the configuration whose behaviour is
    defined: in all these states the teardown frees a string literal, so
    its behaviour is undefined. *)
Theorem cleanup_frees_the_base_url (cs : list call) (w0 w : world) :
  base_url (global_config w0) = base_url default_config →
  do_calls cs w0 = Some w →
  base_url (global_config w) = base_url default_config
  ∧ validation_cleanup w = None.
Proof.
  intros H0 Hcs.
  assert (base_url (global_config w) = base_url default_config) as Hw.
  { revert w0 H0 Hcs. induction cs as [|c cs IH]; intros w0 H0 Hcs.
    - injection Hcs as <-. exact H0.
    - cbn [do_calls] in Hcs. destruct (do_call c w0) as [w1|] eqn:Hc;
        [|discriminate Hcs].
      apply (IH w1); [|exact Hcs].
      eapply do_call_keeps_base_url; [exact H0|exact Hc]. }
  split; [exact Hw|]. eapply cleanup_of_literal. exact Hw.
Qed.

Lemma cleanup_frees_the_base_url_witness :
  ∃ w, do_calls a_session initial_world = Some w
       ∧ exchanges w = 1%nat
       ∧ validation_cleanup initial_world = None
       ∧ validation_cleanup w = None.
Proof.
  destruct (do_calls a_session initial_world) as [w|] eqn:E;
    [|vm_compute in E; discriminate E].
  exists w. split; [reflexivity|].
  split; [vm_compute in E; injection E as <-; reflexivity|].
  split; [reflexivity|].
  exact (proj2 (cleanup_frees_the_base_url a_session initial_world w eq_refl E)).
Defined.

(** X17. What a caller reads back after a request: with metrics on and
    room in the buffer, the snapshot taken after a validation that went
    to the network returns 0, a copy of the old buffer followed by the
    metric of that request, and the old count plus one; when the
    allocation of the copy fails it returns -1 and a NULL pointer and
    leaves the caller's count alone.  The snapshot changes nothing. *)
Theorem metrics_snapshot_after_request
    (e : env) (c : CURL) (endpoint payload : string)
    (error : option validation_error_t) (count : Z) (w : world) :
  enable_metrics (global_config w) = true →
  Z.of_nat (length (metrics_buffer w)) < MAX_METRICS →
  (get_cached_response (cache_key_of endpoint payload) w).1 = None →
  is_Some (get_connection_from_pool e w).1 →
  let r := curl_validation_enhanced e (Some c) (Some endpoint) (Some payload)
             error w in
  validation_get_metrics true count r.2
  = ((0,
      Some (metrics_buffer w
            ++ [{| request_time := now r.2 - now w; retry_count := 0;
                   response_size := 0; metric_timestamp := 0 |}]),
      Z.of_nat (length (metrics_buffer w)) + 1), r.2)
  ∧ validation_get_metrics false count r.2 = ((-1, None, count), r.2).
Proof.
  intros Hon Hroom Hmiss Hconn. cbv zeta.
  pose proof (request_metrics e c endpoint payload error w Hmiss Hconn) as Hm.
  cbv zeta in Hm. rewrite Hon in Hm.
  replace (_ <? _) with true in Hm by (symmetry; apply Z.ltb_lt; exact Hroom).
  cbn [andb] in Hm.
  pose proof (validation_keeps_config e (Some c) (Some endpoint) (Some payload)
                error w) as Hg.
  cbv zeta in Hm. unfold validation_get_metrics. rewrite Hg, Hon, Hm.
  cbn [negb]. rewrite length_app. cbn [length]. split; [|reflexivity].
  repeat f_equal. lia.
Qed.

Lemma metrics_snapshot_after_request_witness :
  let r := curl_validation_enhanced account_stub (Some 100%nat)
             (Some account_endpoint) (Some account_json) None initial_world in
  validation_get_metrics true 7 r.2
  = ((0, Some [{| request_time := now r.2 - now initial_world;
                  retry_count := 0; response_size := 0;
                  metric_timestamp := 0 |}], 1), r.2)
  ∧ validation_get_metrics false 7 r.2 = ((-1, None, 7), r.2).
Proof.
  apply (metrics_snapshot_after_request account_stub 100%nat account_endpoint
           account_json None 7 initial_world).
  - reflexivity.
  - vm_compute. reflexivity.
  - reflexivity.
  - exists 0%nat. reflexivity.
Defined.

(** ** More of the orchestrator *)

(** X18. A cache hit anywhere in the list: when the first entry with the
    key of the request is not expired, the validation returns
    [CURLE_OK] and leaves the error structure alone; the entry comes to
    the front of the list and nothing else in the state changes, so
    there is no exchange, no handle taken and no metric. *)
Theorem validation_cache_hit
    (e : env) (c : CURL) (endpoint payload : string)
    (error : option validation_error_t) (w : world)
    (pre : list cache_entry_t) (x : cache_entry_t) (post : list cache_entry_t) :
  enable_caching (global_config w) = true →
  cache_head w = pre ++ x :: post →
  key x = cache_key_of endpoint payload →
  Forall (λ y, key y ≠ cache_key_of endpoint payload) pre →
  now w < expiry x →
  curl_validation_enhanced e (Some c) (Some endpoint) (Some payload) error w
  = ((CURLE_OK, error), set_cache (x :: pre ++ post) w).
Proof.
  intros Hen Hsplit Hkey Hpre Hfresh. unfold curl_validation_enhanced.
  destruct (lookup_at_split w _ pre x post Hen Hsplit Hkey Hpre) as [Hhit _].
  rewrite bind_run, (Hhit Hfresh). reflexivity.
Qed.

Lemma validation_cache_hit_witness :
  curl_validation_enhanced account_stub (Some 100%nat) (Some "k")
    (Some EmptyString) None (set_cache [entry_a; {| key := "k:"; response := "rk";
                                     expiry := 1700000200 |}; entry_b]
                               initial_world)
  = ((CURLE_OK, None),
     set_cache [{| key := "k:"; response := "rk"; expiry := 1700000200 |};
                entry_a; entry_b] initial_world).
Proof.
  apply (validation_cache_hit account_stub 100%nat "k" EmptyString None
           (set_cache [entry_a; {| key := "k:"; response := "rk";
                                   expiry := 1700000200 |}; entry_b]
              initial_world)
           [entry_a] {| key := "k:"; response := "rk"; expiry := 1700000200 |}
           [entry_b]).
  - reflexivity.
  - reflexivity.
  - reflexivity.
  - constructor; [discriminate|constructor].
  - reflexivity.
Defined.

(** X19. No validation makes more exchanges than [max_retries] says,
    whatever its arguments and whatever the transport answers. *)
Theorem validation_exchanges_bounded
    (e : env) (curl : option CURL) (endpoint payload : option string)
    (error : option validation_error_t) (w : world) :
  let r := curl_validation_enhanced e curl endpoint payload error w in
  (exchanges w ≤ exchanges r.2)%nat
  ∧ (exchanges r.2 ≤ exchanges w + Z.to_nat (max_retries (global_config w)))%nat.
Proof.
  cbv zeta.
  assert (∀ A (m : M A), keeps traffic_view m →
            (exchanges w ≤ exchanges (m w).2)%nat
            ∧ (exchanges (m w).2
               ≤ exchanges w + Z.to_nat (max_retries (global_config w)))%nat)
    as Hsame.
  { intros A m Hm. specialize (Hm w). unfold traffic_view in Hm.
    injection Hm as _ ->. lia. }
  destruct curl as [c|]; [destruct endpoint as [ep|]; [destruct payload as [pl|]|]|];
    try solve [apply Hsame; unfold curl_validation_enhanced; keeps_auto].
  clear Hsame.
  destruct (curl_validation_enhanced _ _ _ _ _ w) as [res w'] eqn:E.
  open_validation E.
  kept_in E traffic_view. unfold traffic_view in Hkept. injection Hkept as Hg0 Hx0.
  destruct o as [v|]; [injection E as _ <-; cbn [snd]; lia|].
  kept_in E traffic_view. unfold traffic_view in Hkept. injection Hkept as Hg1 Hx1.
  destruct o as [conn|].
  - advance E. advance E.
    kept_in E traffic_view. unfold traffic_view in Hkept. injection Hkept as Hg2 Hx2.
    advance E. advance E.
    match type of E with
      context [validation_retry_with_backoff e conn ?m ?W] =>
      pose proof (retry_loop_bound e conn m (Z.to_nat m) Indeterminate 0 1000 W
                    ltac:(lia)) as (_ & Hlo & Hhi & _);
      cbv zeta in Hlo, Hhi; rewrite Z.sub_0_r in Hhi;
      change (retry_loop e conn m (Z.to_nat m) Indeterminate 0 1000 W)
        with (validation_retry_with_backoff e conn m W) in Hlo, Hhi;
      destruct (validation_retry_with_backoff e conn m W) as [rv w3]
    end.
    cbn [snd] in Hlo, Hhi. cbv beta iota zeta in E.
    advance E.
    kept_in E traffic_view. unfold traffic_view in Hkept. injection Hkept as Hg4 Hx4.
    kept_in E traffic_view. unfold traffic_view in Hkept. injection Hkept as Hg5 Hx5.
    kept_in E traffic_view. unfold traffic_view in Hkept. injection Hkept as Hg6 Hx6.
    injection E as _ <-. cbn [snd].
    rewrite Hg1, Hg0 in Hhi. lia.
  - kept_in E traffic_view. unfold traffic_view in Hkept. injection Hkept as Hg2 Hx2.
    injection E as _ <-. cbn [snd]. lia.
Qed.





